(** * ResettableSession: a session wrapper that resets on poison status codes

    Shallow embedding of [app/services/reverse/utils/session.py].

    The underlying [curl_cffi] transport is an external collaborator.  It is
    represented by session identities (a fresh one for every constructed
    [AsyncSession] object), by a chronological trace of the interactions the
    wrapper has with it, and by a [transport] oracle that decides, from the
    history so far, what every awaited transport operation produces: a value
    or a raised Python exception.

    Two layers are given.  [ResettableSession] is the code read as one task
    running alone (a state-and-exception monad, mutations surviving a raise
    as they do in Python).  [Tasks] is the same code cut at its [await]
    suspension points and interleaved by an arbitrary scheduler, with the
    [asyncio.Lock] as a boolean. *)

From stdpp Require Import base gmap sets list strings.

(** ** Python values the wrapper handles *)

(** [except Exception] separates the exceptions deriving from [Exception]
    from those deriving from [BaseException] only (task cancellation,
    [KeyboardInterrupt], [SystemExit]). *)
Inductive exn_base := DerivesException | BaseExceptionOnly.

Record pyexn := PyExn { exn_base_of : exn_base; exn_type : string }.

Definition isinstance_Exception (e : pyexn) : bool :=
  match exn_base_of e with
  | DerivesException => true
  | BaseExceptionOnly => false
  end.

(** Raised by Python itself on [None.close] and [getattr(None, method)]. *)
Definition AttributeError : pyexn := PyExn DerivesException "AttributeError".

(** [asyncio.CancelledError], a [BaseException] since Python 3.8. *)
Definition CancelledError : pyexn := PyExn BaseExceptionOnly "CancelledError".

Inductive outcome (A : Type) :=
| Return (a : A)
| Raise (e : pyexn).
Arguments Return {A} a.
Arguments Raise {A} e.

Record response := Response { status_code : Z; content : string }.

(** Identity of an [AsyncSession] object. *)
Definition sid := nat.

(** [**session_kwargs] and the positional/keyword arguments of a request are
    passed through untouched. *)
Definition session_kwargs := list (string * string).
Definition request_args := string.

Inductive curl_opt := PROXY_SSL_VERIFYPEER | PROXY_SSL_VERIFYHOST.

(** What the wrapper does to the outside world, oldest first. *)
Inductive event :=
| EvConstruct (s : sid) (kw : session_kwargs)
| EvSetopt (s : sid) (o : curl_opt) (v : Z)
| EvCall (s : sid) (method : string) (args : request_args)
| EvClose (s : sid)
| EvLog (msg : string).

(** The transport's behaviour: outcome of awaiting a request method of a
    session, and of awaiting its [close()], given everything that happened
    before. *)
Record transport := Transport {
  t_call : list event → sid → string → request_args → outcome response;
  t_close : list event → sid → outcome ()
}.

(** ** Configuration provider ([get_config]) *)

(** A status-code setting is a single integer or an iterable of integers. *)
Inductive codes_value :=
| CodesInt (n : Z)
| CodesIter (l : list Z).

Record config := Config {
  retry_reset_session_status_codes : option codes_value;
  proxy_skip_proxy_ssl_verify : bool;
  proxy_base_proxy_url : option string
}.

(** Python truthiness of the values involved. *)
Definition truthy_str (o : option string) : bool :=
  match o with
  | Some (String _ _) => true
  | _ => false
  end.

Definition truthy_list {A} (l : list A) : bool :=
  match l with
  | [] => false
  | _ :: _ => true
  end.

(** [int(code)] on an integer. *)
Definition py_int (z : Z) : Z := z.

Definition _should_skip_proxy_ssl (cfg : config) : bool :=
  proxy_skip_proxy_ssl_verify cfg && truthy_str (proxy_base_proxy_url cfg).

(** Lines 31-38 of [__init__]: the poison-code set. *)
Definition resolve_reset_on_status
    (reset_on_status : option codes_value) (cfg : config) : gset Z :=
  let config_codes := retry_reset_session_status_codes cfg in
  let reset_on_status :=
    match reset_on_status with
    | None =>
        match config_codes with
        | Some c => c
        | None => CodesIter [403%Z]
        end
    | Some v => v
    end in
  let reset_on_status :=
    match reset_on_status with
    | CodesInt n => [n]
    | CodesIter l => l
    end in
  if truthy_list reset_on_status
  then list_to_set (py_int <$> reset_on_status)
  else ∅.

(** ** The wrapper and the world it lives in *)

Record machine := Machine {
  (* fields of [self] *)
  _session_kwargs : session_kwargs;
  _reset_on_status : gset Z;
  _skip_proxy_ssl : bool;
  _reset_requested : bool;
  _session : option sid;
  (* the transport side *)
  next_sid : sid;
  trace : list event
}.

Definition set_reset_requested (b : bool) (σ : machine) : machine :=
  Machine (_session_kwargs σ) (_reset_on_status σ) (_skip_proxy_ssl σ)
          b (_session σ) (next_sid σ) (trace σ).

Definition set_session (s : option sid) (σ : machine) : machine :=
  Machine (_session_kwargs σ) (_reset_on_status σ) (_skip_proxy_ssl σ)
          (_reset_requested σ) s (next_sid σ) (trace σ).

Definition emit (evs : list event) (σ : machine) : machine :=
  Machine (_session_kwargs σ) (_reset_on_status σ) (_skip_proxy_ssl σ)
          (_reset_requested σ) (_session σ) (next_sid σ) (trace σ ++ evs).

Definition bump_sid (σ : machine) : machine :=
  Machine (_session_kwargs σ) (_reset_on_status σ) (_skip_proxy_ssl σ)
          (_reset_requested σ) (_session σ) (S (next_sid σ)) (trace σ).

(** The events of [_create_session] for the object [s]. *)
Definition create_events (kw : session_kwargs) (skip : bool) (s : sid) : list event :=
  EvConstruct s kw ::
  (if skip
   then [EvSetopt s PROXY_SSL_VERIFYPEER 0; EvSetopt s PROXY_SSL_VERIFYHOST 0]
   else []).

(** [if self._reset_on_status and response.status_code in self._reset_on_status] *)
Definition poisoned (codes : gset Z) (r : response) : bool :=
  bool_decide (codes ≠ ∅) && bool_decide (status_code r ∈ codes).

(** Sessions the trace shows constructed, called, closed. *)
Definition constructed (evs : list event) : list sid :=
  omap (λ e, match e with EvConstruct s _ => Some s | _ => None end) evs.

Definition called (evs : list event) : list sid :=
  omap (λ e, match e with EvCall s _ _ => Some s | _ => None end) evs.

Definition closed (evs : list event) : list sid :=
  omap (λ e, match e with EvClose s => Some s | _ => None end) evs.

Definition reset_msg : string := "ResettableSession: session reset".

(** Lines 57-59 of [_maybe_reset]: the flag is cleared, a fresh session is
    built from the stored construction parameters and installed. *)
Definition swapped (σ : machine) : machine :=
  let σ := set_reset_requested false σ in
  let new_session := next_sid σ in
  set_session (Some new_session)
    (emit (create_events (_session_kwargs σ) (_skip_proxy_ssl σ) new_session)
          (bump_sid σ)).

(** The session handle, when there is one, is an object that exists. *)
Definition wf (σ : machine) : Prop :=
  ∀ s, _session σ = Some s → s < next_sid σ.

(** [old] is an object of the past: the guard holds another session, or
    none, and no object constructed from now on is [old]. *)
Definition retired (old : sid) (σ : machine) : Prop :=
  old < next_sid σ ∧ ∀ s, _session σ = Some s → s ≠ old ∧ s < next_sid σ.

(** The caller-facing surface. *)
Inductive api_call :=
| CallGet (args : request_args)
| CallPost (args : request_args)
| CallReset
| CallClose.

Definition is_request (c : api_call) : bool :=
  match c with
  | CallGet _ | CallPost _ => true
  | _ => false
  end.

(** ** One task running alone *)

Module ResettableSession.

(** State and exception monad; the state survives a raise. *)
Definition M (A : Type) : Type := machine → outcome A * machine.

#[export] Instance M_ret : MRet M := λ A a σ, (Return a, σ).

#[export] Instance M_bind : MBind M := λ A B f c σ,
  match c σ with
  | (Return a, σ') => f a σ'
  | (Raise e, σ') => (Raise e, σ')
  end.

Definition raise {A} (e : pyexn) : M A := λ σ, (Raise e, σ).
Definition read {A} (f : machine → A) : M A := λ σ, (Return (f σ), σ).
Definition update (f : machine → machine) : M () := λ σ, (Return (), f σ).

(** [try: c  except Exception: h] *)
Definition try_except_Exception {A} (c : M A) (h : M A) : M A := λ σ,
  match c σ with
  | (Raise e, σ') => if isinstance_Exception e then h σ' else (Raise e, σ')
  | r => r
  end.

(** [try: c  finally: f] *)
Definition try_finally {A} (c : M A) (f : M ()) : M A := λ σ,
  match c σ with
  | (o, σ') =>
      match f σ' with
      | (Return _, σ'') => (o, σ'')
      | (Raise e, σ'') => (Raise e, σ'')
      end
  end.

Section WithTransport.

Context (tr : transport).

(** [await s.close()] for whatever [s] is bound to. *)
Definition session_close (s : option sid) : M () := λ σ,
  match s with
  | None => (Raise AttributeError, σ)
  | Some i => (t_close tr (trace σ) i, emit [EvClose i] σ)
  end.

(** [await getattr(s, method)(...)] *)
Definition session_call (s : option sid) (method : string) (args : request_args)
    : M response := λ σ,
  match s with
  | None => (Raise AttributeError, σ)
  | Some i => (t_call tr (trace σ) i method args, emit [EvCall i method args] σ)
  end.

Definition logger_debug (msg : string) : M () := update (emit [EvLog msg]).

(** Lines 44-49.  The two [setopt] calls of lines 47-48 go through
    [session.curl], taken here to be there on the session object; a
    transport whose sessions lack it makes line 47 raise instead. *)
Definition _create_session : M sid := λ σ,
  let session := next_sid σ in
  (Return session,
   emit (create_events (_session_kwargs σ) (_skip_proxy_ssl σ) session) (bump_sid σ)).

(** [_reset_lock] is free whenever a task running alone reaches it, so
    [async with] is entered at once and left on every exit. *)
Definition _maybe_reset : M () :=
  requested ← read _reset_requested;
  if negb requested then mret () else
  requested ← read _reset_requested;
  if negb requested then mret () else
  update (set_reset_requested false);;
  old_session ← read _session;
  new_session ← _create_session;
  update (set_session (Some new_session));;
  try_except_Exception (session_close old_session) (mret ());;
  logger_debug reset_msg.

Definition _request (method : string) (args : request_args) : M response :=
  _maybe_reset;;
  session ← read _session;
  response ← session_call session method args;
  codes ← read _reset_on_status;
  (if poisoned codes response
   then update (set_reset_requested true)
   else mret ());;
  mret response.

Definition get (args : request_args) : M response := _request "get" args.

Definition post (args : request_args) : M response := _request "post" args.

Definition reset : M () :=
  update (set_reset_requested true);;
  _maybe_reset.

Definition close : M () :=
  session ← read _session;
  match session with
  | None => mret ()
  | Some _ =>
      try_finally (session_close session)
        (update (set_session None);; update (set_reset_requested false))
  end.

(** [async with]: the guard itself on entry, [close()] on every exit. *)
Definition __aenter__ : M () := mret ().

Definition __aexit__ : M () := close.

(** Lines 68-71 as one function of the machine [_maybe_reset] left. *)
Definition delegate (method : string) (args : request_args) (σ : machine)
    : outcome response * machine :=
  match _session σ with
  | None => (Raise AttributeError, σ)
  | Some s =>
      match t_call tr (trace σ) s method args with
      | Return r =>
          (Return r,
           if poisoned (_reset_on_status σ) r
           then set_reset_requested true (emit [EvCall s method args] σ)
           else emit [EvCall s method args] σ)
      | Raise e => (Raise e, emit [EvCall s method args] σ)
      end
  end.

(** A caller issuing one call and carrying on whatever comes back. *)
Definition perform (c : api_call) : M (option response) :=
  match c with
  | CallGet args => r ← get args; mret (Some r)
  | CallPost args => r ← post args; mret (Some r)
  | CallReset => reset;; mret None
  | CallClose => close;; mret None
  end.

Fixpoint perform_all (cs : list api_call) (σ : machine) : machine :=
  match cs with
  | [] => σ
  | c :: cs => perform_all cs (perform c σ).2
  end.

End WithTransport.

(** [ResettableSession(reset_on_status=..., **session_kwargs)] in a world
    where [first] sessions were constructed before and [history] happened. *)
Definition __init__ (cfg : config) (reset_on_status : option codes_value)
    (kw : session_kwargs) (first : sid) (history : list event) : machine :=
  let self :=
    Machine kw (resolve_reset_on_status reset_on_status cfg)
            (_should_skip_proxy_ssl cfg) false None first history in
  match _create_session self with
  | (Return s, σ) => set_session (Some s) σ
  | (Raise _, σ) => σ
  end.

End ResettableSession.

(** ** Many tasks on one event loop *)

Module Tasks.

(** Where a task goes on once [_maybe_reset] has returned: line 68 of
    [_request], or the end of [reset]. *)
Inductive cont :=
| KDelegate (method : string) (args : request_args)
| KReturn.

(** A coroutine, stopped at one of its suspension points. *)
Inductive task :=
| Ready (c : api_call)
    (* created, not run yet *)
| WaitLock (k : cont)
    (* line 54: suspended acquiring [_reset_lock] *)
| AwaitClose (k : cont) (old_session : sid)
    (* line 61: [_reset_lock] held, awaiting [old_session.close()] *)
| AwaitResponse (s : sid) (method : string) (args : request_args)
    (* line 68: awaiting the delegated call *)
| AwaitFinalClose (s : sid)
    (* line 87: awaiting [self._session.close()] *)
| Done (o : outcome (option response)).

Record system := System {
  shared : machine;      (* [self] and the transport side *)
  locked : bool;         (* [self._reset_lock.locked()] *)
  tasks : list task
}.

(** What the event loop hands a task when it resumes it.  [Go yield] runs a
    ready task or wakes a lock waiter; with [yield] the task suspends at the
    lock although it is free (other waiters are queued before it). *)
Inductive input :=
| Go (yield : bool)
| CloseResult (o : outcome ())
| CallResult (o : outcome response).

(** Line 68 up to its [await], or the return of [reset]. *)
Definition after_maybe_reset (k : cont) (σ : machine) : task * machine :=
  match k with
  | KReturn => (Done (Return None), σ)
  | KDelegate method args =>
      match _session σ with
      | None => (Done (Raise AttributeError), σ)
      | Some s => (AwaitResponse s method args, emit [EvCall s method args] σ)
      end
  end.

(** Lines 62-64 and the exit of [async with], once the close has settled as
    a return or as an [Exception]. *)
Definition finish_reset (k : cont) (σ : machine) : task * machine * bool :=
  (after_maybe_reset k (emit [EvLog reset_msg] σ), false).

(** Lines 55-61 with [_reset_lock] just acquired, up to the [await]. *)
Definition locked_section (k : cont) (σ : machine) : task * machine * bool :=
  if negb (_reset_requested σ) then (after_maybe_reset k σ, false)
  else
    match _session σ with
    | Some old_session =>
        (AwaitClose k old_session, emit [EvClose old_session] (swapped σ), true)
    | None => finish_reset k (swapped σ)
    end.

(** Lines 52-54. *)
Definition enter_maybe_reset (yield : bool) (k : cont) (σ : machine) (l : bool)
    : task * machine * bool :=
  if negb (_reset_requested σ) then (after_maybe_reset k σ, l)
  else if l || yield then (WaitLock k, σ, l)
  else locked_section k σ.

(** One task runs from its suspension point to the next one. *)
Definition step_task (i : input) (t : task) (σ : machine) (l : bool)
    : option (task * machine * bool) :=
  match t, i with
  | Ready (CallGet args), Go y => Some (enter_maybe_reset y (KDelegate "get" args) σ l)
  | Ready (CallPost args), Go y => Some (enter_maybe_reset y (KDelegate "post" args) σ l)
  | Ready CallReset, Go y =>
      Some (enter_maybe_reset y KReturn (set_reset_requested true σ) l)
  | Ready CallClose, Go _ =>
      match _session σ with
      | None => Some (Done (Return None), σ, l)
      | Some s => Some (AwaitFinalClose s, emit [EvClose s] σ, l)
      end
  | WaitLock k, Go _ => if l then None else Some (locked_section k σ)
  | AwaitClose k _, CloseResult (Return _) => Some (finish_reset k σ)
  | AwaitClose k _, CloseResult (Raise e) =>
      if isinstance_Exception e then Some (finish_reset k σ)
      else Some (Done (Raise e), σ, false)
  | AwaitResponse _ _ _, CallResult (Return r) =>
      Some (Done (Return (Some r)),
            if poisoned (_reset_on_status σ) r then set_reset_requested true σ else σ,
            l)
  | AwaitResponse _ _ _, CallResult (Raise e) => Some (Done (Raise e), σ, l)
  | AwaitFinalClose _, CloseResult o =>
      Some (Done (match o with Return _ => Return None | Raise e => Raise e end),
            set_reset_requested false (set_session None σ), l)
  | _, _ => None
  end.

Definition step (n : nat) (i : input) (Σ : system) : option system :=
  t ← tasks Σ !! n;
  '(t', σ', l') ← step_task i t (shared Σ) (locked Σ);
  Some (System σ' l' (<[n := t']> (tasks Σ))).

(** A schedule: which task is resumed with what, in order. *)
Fixpoint run (sched : list (nat * input)) (Σ : system) : option system :=
  match sched with
  | [] => Some Σ
  | (n, i) :: sched => Σ' ← step n i Σ; run sched Σ'
  end.

(** A task running alone on the transport [tr]: every awaited operation
    settles as [tr] decides from the history before it was started, and the
    task is resumed at once. *)
Definition answer (tr : transport) (t : task) (σ : machine) : input :=
  match t with
  | AwaitClose _ s | AwaitFinalClose s =>
      CloseResult (t_close tr (removelast (trace σ)) s)
  | AwaitResponse s method args =>
      CallResult (t_call tr (removelast (trace σ)) s method args)
  | _ => Go false
  end.

Fixpoint run_alone (tr : transport) (fuel : nat) (t : task) (σ : machine) (l : bool)
    : task * machine * bool :=
  match fuel with
  | 0 => (t, σ, l)
  | S fuel =>
      match step_task (answer tr t σ) t σ l with
      | Some (t', σ', l') => run_alone tr fuel t' σ' l'
      | None => (t, σ, l)
      end
  end.

(** *** Observations *)

(** The task is inside the reconstruction sequence. *)
Definition reconstructing (t : task) : bool :=
  match t with
  | AwaitClose _ _ => true
  | _ => false
  end.

Definition reconstructors (Σ : system) : nat :=
  length (filter (λ t, reconstructing t = true) (tasks Σ)).

(** [_reset_lock] is held exactly while one task is in the sequence. *)
Definition exclusive (Σ : system) : Prop :=
  reconstructors Σ = Nat.b2n (locked Σ).

Definition pending (Σ : system) : bool := _reset_requested (shared Σ).

(** Sessions constructed so far. *)
Definition constructions (Σ : system) : nat :=
  length (constructed (trace (shared Σ))).

(** The step turns the pending flag on: [reset()] is called, or a poison
    response comes back, while no reset is pending. *)
Definition arms (t : task) (i : input) (σ : machine) : bool :=
  negb (_reset_requested σ) &&
  match t, i with
  | Ready CallReset, Go _ => true
  | AwaitResponse _ _ _, CallResult (Return r) => poisoned (_reset_on_status σ) r
  | _, _ => false
  end.

(** The step is the [finally] of [close()] dropping a pending reset. *)
Definition drops (t : task) (i : input) (σ : machine) : bool :=
  _reset_requested σ &&
  match t, i with
  | AwaitFinalClose _, CloseResult _ => true
  | _, _ => false
  end.

Definition count_step (f : task → input → machine → bool)
    (n : nat) (i : input) (Σ : system) : nat :=
  match tasks Σ !! n with
  | Some t => if f t i (shared Σ) then 1 else 0
  | None => 0
  end.

(** Number of steps of the schedule that satisfy [f]. *)
Fixpoint count_run (f : task → input → machine → bool)
    (sched : list (nat * input)) (Σ : system) : nat :=
  match sched with
  | [] => 0
  | (n, i) :: sched =>
      count_step f n i Σ +
      match step n i Σ with
      | Some Σ' => count_run f sched Σ'
      | None => 0
      end
  end.

(** Suspension points a task may still have ahead of it, itself included. *)
Definition rank (t : task) : nat :=
  match t with
  | Ready _ => 4
  | WaitLock _ => 3
  | AwaitClose _ _ => 2
  | AwaitResponse _ _ _ | AwaitFinalClose _ => 1
  | Done _ => 0
  end.

Definition work (Σ : system) : nat := sum_list (rank <$> tasks Σ).

Definition is_done (t : task) : bool :=
  match t with
  | Done _ => true
  | _ => false
  end.

(** The task has not gone through [_maybe_reset] yet / has left it. *)
Definition before_reset (t : task) : bool :=
  match t with
  | Ready (CallGet _) | Ready (CallPost _) | Ready CallReset | WaitLock _ => true
  | _ => false
  end.

Definition past_reset (t : task) : bool :=
  match t with
  | AwaitClose _ _ | AwaitResponse _ _ _ | Done _ => true
  | _ => false
  end.

(** Nobody calls [close()]: the guard stays open. *)
Definition never_closes (t : task) : bool :=
  match t with
  | Ready CallClose | AwaitFinalClose _ => false
  | _ => true
  end.

(** The guard holds a session that exists and that nobody has closed. *)
Definition holds_live (σ : machine) : Prop :=
  (∃ s, _session σ = Some s ∧ s < next_sid σ ∧ s ∉ closed (trace σ)) ∧
  Forall (λ c, c < next_sid σ) (closed (trace σ)).

Definition guard_open (Σ : system) : Prop :=
  Forall (λ t, never_closes t = true) (tasks Σ) ∧ holds_live (shared Σ).

(** Some event satisfying [p] is followed, later on, by one satisfying [q]. *)
Fixpoint occurs_before (p q : event → bool) (l : list event) : bool :=
  match l with
  | [] => false
  | e :: l => (p e && existsb q l) || occurs_before p q l
  end.

Definition is_close_of (s : sid) (e : event) : bool :=
  match e with
  | EvClose s' => bool_decide (s' = s)
  | _ => false
  end.

Definition is_construct_of (s : sid) (e : event) : bool :=
  match e with
  | EvConstruct s' _ => bool_decide (s' = s)
  | _ => false
  end.

End Tasks.

(** ** The rest of the surface *)

Module Surface.
Import ResettableSession.

(** What [getattr(obj, name)] gives, [obj] being a session or [None]. *)
Definition attributes := option sid → string → outcome string.

(** [__getattr__], for a [name] the guard does not define itself: the
    lookup is handed to whatever [self._session] is bound to. *)
Definition session_getattr (attrs : attributes) (s : option sid) (name : string)
    : M string := λ σ, (attrs s name, σ).

Definition __getattr__ (attrs : attributes) (name : string) : M string :=
  session ← read _session;
  session_getattr attrs session name.

(** [async with guard: body].  [__aexit__] returns [None], so what the
    body raised is raised again once [close()] is through. *)
Definition async_with {A} (tr : transport) (body : M A) : M A :=
  __aenter__;;
  try_finally body (__aexit__ tr).

End Surface.

(** The events that configure sessions. *)
Definition is_config (e : event) : bool :=
  match e with
  | EvConstruct _ _ | EvSetopt _ _ _ => true
  | _ => false
  end.

Definition config_events (evs : list event) : list event :=
  filter (λ e, is_config e = true) evs.

(** The parts of [self] that only [__init__] assigns. *)
Definition settings (σ : machine) : session_kwargs * gset Z * bool :=
  (_session_kwargs σ, _reset_on_status σ, _skip_proxy_ssl σ).

(** Every session was built from the stored parameters. *)
Definition configured_alike (σ : machine) : Prop :=
  config_events (trace σ) =
    concat (create_events (_session_kwargs σ) (_skip_proxy_ssl σ) <$>
            constructed (trace σ)).

(** The sessions constructed are those closed, in that order, and the one
    held. *)
Definition accounted (σ : machine) : Prop :=
  constructed (trace σ) = closed (trace σ) ++ option_list (_session σ).

(** The objects [first], [first + 1], ... were constructed, one each. *)
Definition numbered (first : sid) (σ : machine) : Prop :=
  first ≤ next_sid σ ∧
  constructed (trace σ) = seq first (next_sid σ - first).

(** [s] is a session that exists, that the guard does not hold and whose
    close was never called. *)
Definition dropped (s : sid) (σ : machine) : Prop :=
  s < next_sid σ ∧ _session σ ≠ Some s ∧ s ∉ closed (trace σ).

(** A request not yet started, or one awaiting its answer from [s]. *)
Definition requesting (s : sid) (t : Tasks.task) : Prop :=
  (∃ c, t = Tasks.Ready c ∧ is_request c = true) ∨
  (∃ method args, t = Tasks.AwaitResponse s method args).

Definition is_go (i : Tasks.input) : bool :=
  match i with
  | Tasks.Go _ => true
  | _ => false
  end.

(** ** Concrete worlds *)

Module Examples.

(** A transport on which every close fails with [OSError], every request
    answers 200. *)
Definition failing_close : transport :=
  Transport (λ _ _ _ _, Return (Response 200 "ok"))
            (λ _ _, Raise (PyExn DerivesException "OSError")).

(** A transport whose requests fail to connect. *)
Definition failing_call : transport :=
  Transport (λ _ _ _ _, Raise (PyExn DerivesException "ConnectionError"))
            (λ _ _, Return ()).

(** A transport that answers 403 to everything and whose close is
    interrupted by the cancellation of the awaiting task. *)
Definition cancelled_close : transport :=
  Transport (λ _ _ _ _, Return (Response 403 "blocked"))
            (λ _ _, Raise CancelledError).

(** A transport that answers 403 to everything and closes cleanly. *)
Definition always_403 : transport :=
  Transport (λ _ _ _ _, Return (Response 403 "blocked"))
            (λ _ _, Return ()).

(** A guard built with nothing configured and no argument, first object of
    its world. *)
Definition fresh_guard : machine :=
  ResettableSession.__init__ (Config None false None) None [] 0 [].

Definition ok : outcome response := Return (Response 200 "ok").
Definition blocked : outcome response := Return (Response 403 "blocked").

Definition ok_done : outcome (option response) :=
  Return (Some (Response 200 "ok")).
Definition blocked_done : outcome (option response) :=
  Return (Some (Response 403 "blocked")).

(** Five requests started on a fresh guard. *)
Definition five_requests : Tasks.system :=
  Tasks.System fresh_guard false
    [Tasks.Ready (CallGet "/a"); Tasks.Ready (CallGet "/b");
     Tasks.Ready (CallPost "/c"); Tasks.Ready (CallGet "/d");
     Tasks.Ready (CallGet "/e")].

(** The last two go out on session 0 and are both answered 403, the second
    answer arriving while the first request is awaiting the close of
    session 0 in its reconstruction. *)
Definition arming_schedule : list (nat * Tasks.input) :=
  [(3, Tasks.Go false); (4, Tasks.Go false); (3, Tasks.CallResult blocked);
   (0, Tasks.Go false); (4, Tasks.CallResult blocked)].

(** The two remaining requests find the reset pending and the lock held;
    everything then runs to completion, answered 200. *)
Definition settling_schedule : list (nat * Tasks.input) :=
  [(1, Tasks.Go false); (2, Tasks.Go false);
   (0, Tasks.CloseResult (Return ()));
   (1, Tasks.Go false);
   (1, Tasks.CloseResult (Raise (PyExn DerivesException "OSError")));
   (2, Tasks.Go false);
   (0, Tasks.CallResult ok); (1, Tasks.CallResult ok); (2, Tasks.CallResult ok)].

(** Where [arming_schedule] leaves [five_requests]: request 0 inside the
    reconstruction sequence, a new reset pending, requests 1 and 2 not
    started. *)
Definition contended : Tasks.system :=
  Tasks.System
    (Machine [] (_reset_on_status fresh_guard) false true (Some 1) 2
       [EvConstruct 0 []; EvCall 0 "get" "/d"; EvCall 0 "get" "/e";
        EvConstruct 1 []; EvClose 0])
    true
    [Tasks.AwaitClose (Tasks.KDelegate "get" "/a") 0;
     Tasks.Ready (CallGet "/b"); Tasks.Ready (CallPost "/c");
     Tasks.Done blocked_done; Tasks.Done blocked_done].

(** Where [settling_schedule] leaves [contended]. *)
Definition settled : Tasks.system :=
  Tasks.System
    (Machine [] (_reset_on_status fresh_guard) false false (Some 2) 3
       [EvConstruct 0 []; EvCall 0 "get" "/d"; EvCall 0 "get" "/e";
        EvConstruct 1 []; EvClose 0; EvLog reset_msg; EvCall 1 "get" "/a";
        EvConstruct 2 []; EvClose 1; EvLog reset_msg;
        EvCall 2 "get" "/b"; EvCall 2 "post" "/c"])
    false
    [Tasks.Done ok_done; Tasks.Done ok_done; Tasks.Done ok_done;
     Tasks.Done blocked_done; Tasks.Done blocked_done].

(** [close()] and [reset()] called on a fresh guard at the same time. *)
Definition close_and_reset : Tasks.system :=
  Tasks.System fresh_guard false [Tasks.Ready CallClose; Tasks.Ready CallReset].

(** [close()] has started closing session 0 and is awaiting that; [reset()]
    has meanwhile installed session 1 and is awaiting its own close of
    session 0. *)
Definition close_overtaken : Tasks.system :=
  Tasks.System
    (Machine [] (_reset_on_status fresh_guard) false false (Some 1) 2
       [EvConstruct 0 []; EvClose 0; EvConstruct 1 []; EvClose 0])
    true
    [Tasks.AwaitFinalClose 0; Tasks.AwaitClose Tasks.KReturn 0].

(** [five_requests] once the last two requests have gone out and the first
    answer, a 403, has come back: a reset is pending, the lock is free. *)
Definition armed : Tasks.system :=
  Tasks.System
    (Machine [] (_reset_on_status fresh_guard) false true (Some 0) 1
       [EvConstruct 0 []; EvCall 0 "get" "/d"; EvCall 0 "get" "/e"])
    false
    [Tasks.Ready (CallGet "/a"); Tasks.Ready (CallGet "/b");
     Tasks.Ready (CallPost "/c"); Tasks.Done blocked_done;
     Tasks.AwaitResponse 0 "get" "/e"].

(** [armed] once request 0 has started: it is inside the reconstruction
    sequence, awaiting the close of session 0 with the lock held; session 1
    is installed and no reset is pending. *)
Definition swapping : Tasks.system :=
  Tasks.System
    (Machine [] (_reset_on_status fresh_guard) false false (Some 1) 2
       [EvConstruct 0 []; EvCall 0 "get" "/d"; EvCall 0 "get" "/e";
        EvConstruct 1 []; EvClose 0])
    true
    [Tasks.AwaitClose (Tasks.KDelegate "get" "/a") 0;
     Tasks.Ready (CallGet "/b"); Tasks.Ready (CallPost "/c");
     Tasks.Done blocked_done; Tasks.AwaitResponse 0 "get" "/e"].

(** [contended] five steps into [settling_schedule]: requests 0 and 1 have
    each reconstructed and gone out, request 2 is still queued at the lock,
    which is free, and no reset is pending. *)
Definition queued : Tasks.system :=
  Tasks.System
    (Machine [] (_reset_on_status fresh_guard) false false (Some 2) 3
       [EvConstruct 0 []; EvCall 0 "get" "/d"; EvCall 0 "get" "/e";
        EvConstruct 1 []; EvClose 0; EvLog reset_msg; EvCall 1 "get" "/a";
        EvConstruct 2 []; EvClose 1; EvLog reset_msg; EvCall 2 "get" "/b"])
    false
    [Tasks.AwaitResponse 1 "get" "/a"; Tasks.AwaitResponse 2 "get" "/b";
     Tasks.WaitLock (Tasks.KDelegate "post" "/c");
     Tasks.Done blocked_done; Tasks.Done blocked_done].

(** The first five steps of [settling_schedule], which lead to [queued]. *)
Definition queueing_schedule : list (nat * Tasks.input) :=
  [(1, Tasks.Go false); (2, Tasks.Go false);
   (0, Tasks.CloseResult (Return ()));
   (1, Tasks.Go false);
   (1, Tasks.CloseResult (Raise (PyExn DerivesException "OSError")))].

(** Four requests and a [close()] started on a fresh guard. *)
Definition requests_and_close : Tasks.system :=
  Tasks.System fresh_guard false
    [Tasks.Ready (CallGet "/a"); Tasks.Ready (CallGet "/b");
     Tasks.Ready CallClose; Tasks.Ready (CallGet "/d");
     Tasks.Ready (CallGet "/e")].

(** As [arming_schedule]; then request 1 starts, finds the reset pending
    and the lock held, and queues for the lock. *)
Definition observing_schedule : list (nat * Tasks.input) :=
  arming_schedule ++ [(1, Tasks.Go false)].

(** [close()] runs to its end; the reconstruction under way finishes; the
    queued request gets the lock. *)
Definition dropping_schedule : list (nat * Tasks.input) :=
  [(2, Tasks.Go false); (2, Tasks.CloseResult (Return ()));
   (0, Tasks.CloseResult (Return ())); (1, Tasks.Go false)].

(** One [reset()] called on a fresh guard. *)
Definition one_reset : Tasks.system :=
  Tasks.System fresh_guard false [Tasks.Ready CallReset].

End Examples.

(** * Properties *)

(** ** One task running alone *)

Module Alone.
Import ResettableSession Examples.

Ltac run_monad :=
  unfold logger_debug, _create_session;
  unfold mbind, M_bind, mret, M_ret, read, update, raise,
    try_except_Exception, try_finally, session_close, session_call; simpl.

Section Equations.
Context (tr : transport).

Lemma maybe_reset_idle σ :
  _reset_requested σ = false → _maybe_reset tr σ = (Return (), σ).
Proof.
  destruct σ as [kw codes skip req ses nxt evs]; simpl. intros ->.
  reflexivity.
Qed.

Lemma maybe_reset_pending σ :
  _reset_requested σ = true →
  _maybe_reset tr σ =
    match _session σ with
    | None => (Return (), emit [EvLog reset_msg] (swapped σ))
    | Some old =>
        match t_close tr (trace (swapped σ)) old with
        | Return _ => (Return (), emit [EvClose old; EvLog reset_msg] (swapped σ))
        | Raise e =>
            if isinstance_Exception e
            then (Return (), emit [EvClose old; EvLog reset_msg] (swapped σ))
            else (Raise e, emit [EvClose old] (swapped σ))
        end
    end.
Proof.
  destruct σ as [kw codes skip req ses nxt evs]; simpl. intros ->.
  unfold _maybe_reset. run_monad. unfold swapped, emit; simpl.
  destruct ses as [old|]; simpl; [|done].
  destruct (t_close tr _ old) as [[]|e]; simpl.
  - by rewrite <- app_assoc.
  - destruct (isinstance_Exception e); simpl; [by rewrite <- app_assoc | done].
Qed.

Lemma request_unfold method args σ :
  _request tr method args σ =
    match _maybe_reset tr σ with
    | (Return _, σm) => delegate tr method args σm
    | (Raise e, σm) => (Raise e, σm)
    end.
Proof.
  unfold _request. unfold mbind at 1, M_bind at 1.
  destruct (_maybe_reset tr σ) as [[[]|e] σm]; [|done].
  unfold delegate. run_monad.
  destruct (_session σm) as [s|]; [|done].
  destruct (t_call tr (trace σm) s method args) as [r|e]; [|done].
  simpl. by destruct (poisoned (_reset_on_status σm) r).
Qed.

Lemma close_unfold σ :
  close tr σ =
    match _session σ with
    | None => (Return (), σ)
    | Some s =>
        (t_close tr (trace σ) s,
         set_reset_requested false (set_session None (emit [EvClose s] σ)))
    end.
Proof.
  unfold close. run_monad. by destruct (_session σ).
Qed.

Lemma reset_unfold σ :
  reset tr σ = _maybe_reset tr (set_reset_requested true σ).
Proof. reflexivity. Qed.

(** What every way out of [_maybe_reset] has in common. *)
Lemma maybe_reset_cases σ o σm :
  _maybe_reset tr σ = (o, σm) →
  (_reset_requested σ = false ∧ o = Return () ∧ σm = σ) ∨
  (_reset_requested σ = true ∧ ∃ evs,
     σm = emit evs (swapped σ) ∧
     constructed evs = [] ∧ called evs = [] ∧
     closed evs = option_list (_session σ) ∧
     (o = Return () ∨
      ∃ old e, _session σ = Some old ∧ o = Raise e ∧
        t_close tr (trace (swapped σ)) old = Raise e ∧
        isinstance_Exception e = false)).
Proof.
  destruct (_reset_requested σ) eqn:Hreq.
  - rewrite maybe_reset_pending by done. intros Hrun. right. split; [done|].
    destruct (_session σ) as [old|]; [|injection Hrun as <- <-; eauto 10].
    destruct (t_close tr _ old) as [[]|e] eqn:Hclose;
      [injection Hrun as <- <-; eauto 10|].
    destruct (isinstance_Exception e) eqn:He; injection Hrun as <- <-; eauto 15.
  - rewrite maybe_reset_idle by done. intros [= <- <-]. by left.
Qed.

Lemma maybe_reset_clears σ o σm :
  _maybe_reset tr σ = (o, σm) → _reset_requested σm = false.
Proof.
  intros [(? & ? & ->)|(_ & evs & -> & _)]%maybe_reset_cases; done.
Qed.

Lemma maybe_reset_codes σ o σm :
  _maybe_reset tr σ = (o, σm) → _reset_on_status σm = _reset_on_status σ.
Proof.
  intros [(? & ? & ->)|(_ & evs & -> & _)]%maybe_reset_cases; done.
Qed.

End Equations.

(** *** Construction *)

Lemma init_fields cfg arg kw first history :
  __init__ cfg arg kw first history =
    Machine kw (resolve_reset_on_status arg cfg) (_should_skip_proxy_ssl cfg)
            false (Some first) (S first)
            (history ++ create_events kw (_should_skip_proxy_ssl cfg) first).
Proof. reflexivity. Qed.

Lemma init_wf cfg arg kw first history : wf (__init__ cfg arg kw first history).
Proof. intros s [= <-]. simpl. lia. Qed.

Lemma list_to_set_truthy (l : list Z) :
  (if truthy_list l then list_to_set (py_int <$> l) else ∅) =@{gset Z} list_to_set l.
Proof.
  destruct l as [|z l]; [done|]. simpl.
  f_equal. induction l as [|y l IH]; [done|]. simpl. by rewrite IH.
Qed.

(** C3. The poison-code set of a new guard is the explicit argument when
    one is given (an iterable as its set of elements, a single integer as
    the one-element set); with the argument omitted it is the configured
    value, resolved the same way; with that absent too it is exactly {403}.
    With [429, 503] configured and no argument, 429 and 503 are poison
    codes and 403 is not. *)
Theorem reset_on_status_precedence skip url kw first history :
  let codes arg configured :=
    _reset_on_status (__init__ (Config configured skip url) arg kw first history) in
  (∀ configured l, codes (Some (CodesIter l)) configured = list_to_set l) ∧
  (∀ configured n, codes (Some (CodesInt n)) configured = {[ n ]}) ∧
  (∀ c, codes None (Some c) = codes (Some c) None) ∧
  codes None None = {[ 403%Z ]} ∧
  (let configured := Some (CodesIter [429; 503]%Z) in
   ∀ body,
     poisoned (codes None configured) (Response 429 body) = true ∧
     poisoned (codes None configured) (Response 503 body) = true ∧
     poisoned (codes None configured) (Response 403 body) = false).
Proof.
  intros codes. subst codes. simpl. unfold resolve_reset_on_status. simpl.
  split_and!.
  - intros _ l. apply list_to_set_truthy.
  - intros _ n. apply (right_id_L ∅ (∪)).
  - by intros [n|l].
  - apply (right_id_L ∅ (∪)).
  - intros body. by vm_compute.
Qed.
(** *** Closing *)

(** C7. [close()] on a guard that holds a session calls the session's
    close once and, whether that returns or raises, leaves the handle absent
    and the pending flag false; what the underlying close produced (a raised
    error included) is what the caller gets.  A [close()] after that, as any
    [close()] without a session, changes nothing and touches no session. *)
Theorem close_clears_state tr σ s :
  _session σ = Some s →
  let (o, σ1) := close tr σ in
  o = t_close tr (trace σ) s ∧
  trace σ1 = trace σ ++ [EvClose s] ∧
  _session σ1 = None ∧ _reset_requested σ1 = false ∧
  close tr σ1 = (Return (), σ1) ∧
  ∀ σ', _session σ' = None → close tr σ' = (Return (), σ').
Proof.
  intros Hs. rewrite close_unfold, Hs. simpl. split_and!; try done.
  intros σ' Hs'. by rewrite close_unfold, Hs'.
Qed.

Lemma close_clears_state_witness :
  let σ := fresh_guard in
  let (o, σ1) := close failing_close σ in
  o = Raise (PyExn DerivesException "OSError") ∧
  trace σ1 = trace σ ++ [EvClose 0] ∧
  _session σ1 = None ∧ _reset_requested σ1 = false ∧
  close failing_close σ1 = (Return (), σ1) ∧
  ∀ σ', _session σ' = None → close failing_close σ' = (Return (), σ').
Proof.
  exact (close_clears_state failing_close fresh_guard 0 eq_refl).
Defined.

(** C10. Once [close()] has completed, [reset()] takes the absent handle
    for the old session: it builds a brand-new session and installs it, the
    failed attribute access on the absent handle is swallowed like a close
    failure, and the call returns normally with the guard holding a session
    again. *)
Theorem reset_after_close_reopens tr σ s :
  _session σ = Some s →
  let σ1 := (close tr σ).2 in
  _session σ1 = None ∧ _reset_requested σ1 = false ∧
  reset tr σ1 = (Return (), emit [EvLog reset_msg] (swapped σ1)) ∧
  _session (reset tr σ1).2 = Some (next_sid σ) ∧
  trace (reset tr σ1).2 =
    trace σ1 ++
    create_events (_session_kwargs σ) (_skip_proxy_ssl σ) (next_sid σ) ++
    [EvLog reset_msg].
Proof.
  intros Hs. rewrite close_unfold, Hs. simpl.
  rewrite reset_unfold, maybe_reset_pending by done. simpl.
  split_and!; try done. by rewrite <- !app_assoc.
Qed.

Lemma reset_after_close_reopens_witness :
  let σ1 := (close failing_close fresh_guard).2 in
  _session σ1 = None ∧ _reset_requested σ1 = false ∧
  reset failing_close σ1 = (Return (), emit [EvLog reset_msg] (swapped σ1)) ∧
  _session (reset failing_close σ1).2 = Some 1 ∧
  trace (reset failing_close σ1).2 =
    trace σ1 ++ create_events [] false 1 ++ [EvLog reset_msg].
Proof.
  exact (reset_after_close_reopens failing_close fresh_guard 0 eq_refl).
Defined.

(** *** What the trace of one call shows *)

Lemma constructed_app l1 l2 : constructed (l1 ++ l2) = constructed l1 ++ constructed l2.
Proof. apply omap_app. Qed.

Lemma called_app l1 l2 : called (l1 ++ l2) = called l1 ++ called l2.
Proof. apply omap_app. Qed.

Lemma closed_app l1 l2 : closed (l1 ++ l2) = closed l1 ++ closed l2.
Proof. apply omap_app. Qed.

Lemma constructed_create kw skip s : constructed (create_events kw skip s) = [s].
Proof. by destruct skip. Qed.

Lemma called_create kw skip s : called (create_events kw skip s) = [].
Proof. by destruct skip. Qed.

Lemma closed_create kw skip s : closed (create_events kw skip s) = [].
Proof. by destruct skip. Qed.

Lemma trace_swapped σ :
  trace (swapped σ) =
    trace σ ++ create_events (_session_kwargs σ) (_skip_proxy_ssl σ) (next_sid σ).
Proof. reflexivity. Qed.

(** *** Requests *)

(** C9. When the delegated transport call raises, [_request] raises the
    very same exception and does nothing after it: the machine is the one
    [_maybe_reset] left, plus the record of the call.  The pending flag is
    false, so the request that follows reconstructs nothing; and when no
    reset was pending beforehand, the fields of the guard are those from
    before the request. *)
Theorem transport_error_propagates tr σ σm s method args e :
  _maybe_reset tr σ = (Return (), σm) →
  _session σm = Some s →
  t_call tr (trace σm) s method args = Raise e →
  let σ' := emit [EvCall s method args] σm in
  _request tr method args σ = (Raise e, σ') ∧
  _reset_requested σ' = false ∧
  _maybe_reset tr σ' = (Return (), σ') ∧
  (_reset_requested σ = false → σ' = emit [EvCall s method args] σ).
Proof.
  intros Hm Hs Hcall. simpl.
  pose proof (maybe_reset_clears tr _ _ _ Hm) as Hclr.
  split_and!.
  - rewrite request_unfold, Hm. unfold delegate. by rewrite Hs, Hcall.
  - done.
  - by apply maybe_reset_idle.
  - intros Hidle. rewrite maybe_reset_idle in Hm by done. by injection Hm as <-.
Qed.

Lemma transport_error_propagates_witness :
  let e := PyExn DerivesException "ConnectionError" in
  let σ' := emit [EvCall 0 "get" "/"] fresh_guard in
  _request failing_call "get" "/" fresh_guard = (Raise e, σ') ∧
  _reset_requested σ' = false ∧
  _maybe_reset failing_call σ' = (Return (), σ') ∧
  (_reset_requested fresh_guard = false → σ' = emit [EvCall 0 "get" "/"] fresh_guard).
Proof.
  exact (transport_error_propagates failing_call fresh_guard fresh_guard 0
           "get" "/" (PyExn DerivesException "ConnectionError")
           eq_refl eq_refl eq_refl).
Defined.

(** *** Reconstruction *)

(** C6, as stated, fails: a close of the old session that is interrupted by
    [CancelledError] is not caught by [except Exception].  Here a first
    [get] is answered 403 and arms the reset; the second [get] reconstructs,
    the close of session 0 raises, and the caller of that second [get] is
    handed the exception, no request having been delegated for it. *)
Lemma close_cancellation_reaches_caller :
  let σ1 := (get cancelled_close "/" fresh_guard).2 in
  _reset_requested σ1 = true ∧ _session σ1 = Some 0 ∧
  t_close cancelled_close (trace (swapped σ1)) 0 = Raise CancelledError ∧
  (get cancelled_close "/" σ1).1 = Raise CancelledError ∧
  trace (get cancelled_close "/" σ1).2 =
    [EvConstruct 0 []; EvCall 0 "get" "/"; EvConstruct 1 []; EvClose 0].
Proof. by vm_compute. Qed.

(** C6, amended. During reconstruction an exception raised by the close of
    the old session is caught when it is an instance of [Exception]:
    [_maybe_reset] returns normally (only the fixed debug line is logged)
    and the request goes on to the new session.  An exception that is not
    an instance of [Exception] is not caught: it comes out of
    [_maybe_reset], of [reset()] and of the request that triggered the
    reconstruction, which delegates nothing, and the debug line is not
    logged.  Whatever the close does, the new session is installed and the
    flag cleared. *)
Theorem close_exception_swallowed tr σ old :
  _reset_requested σ = true →
  _session σ = Some old →
  (_session (_maybe_reset tr σ).2 = Some (next_sid σ) ∧
   _reset_requested (_maybe_reset tr σ).2 = false) ∧
  (∀ e,
     t_close tr (trace (swapped σ)) old = Raise e →
     isinstance_Exception e = true →
     let σm := emit [EvClose old; EvLog reset_msg] (swapped σ) in
     _maybe_reset tr σ = (Return (), σm) ∧
     reset tr σ = (Return (), σm) ∧
     ∀ method args, _request tr method args σ = delegate tr method args σm) ∧
  (∀ e,
     t_close tr (trace (swapped σ)) old = Raise e →
     isinstance_Exception e = false →
     let σm := emit [EvClose old] (swapped σ) in
     _maybe_reset tr σ = (Raise e, σm) ∧
     reset tr σ = (Raise e, σm) ∧
     ∀ method args, _request tr method args σ = (Raise e, σm)).
Proof.
  intros Hreq Hs.
  assert (reset tr σ = _maybe_reset tr σ) as Hreset.
  { rewrite reset_unfold, !maybe_reset_pending by done.
    change (swapped (set_reset_requested true σ)) with (swapped σ).
    by change (_session (set_reset_requested true σ)) with (_session σ). }
  rewrite Hreset. rewrite maybe_reset_pending, Hs by done. split_and!.
  - destruct (t_close tr _ old) as [[]|e]; [done|].
    by destruct (isinstance_Exception e).
  - destruct (t_close tr _ old) as [[]|e]; [done|].
    by destruct (isinstance_Exception e).
  - intros e Hclose He. cbv zeta. rewrite Hclose, He. split_and!; try done.
    intros method args.
    by rewrite request_unfold, maybe_reset_pending, Hs, Hclose, He.
  - intros e Hclose He. cbv zeta. rewrite Hclose, He. split_and!; try done.
    intros method args.
    by rewrite request_unfold, maybe_reset_pending, Hs, Hclose, He.
Qed.

Lemma close_exception_swallowed_witness :
  let σ := set_reset_requested true fresh_guard in
  (let σm := emit [EvClose 0; EvLog reset_msg] (swapped σ) in
   _maybe_reset failing_close σ = (Return (), σm) ∧
   reset failing_close σ = (Return (), σm) ∧
   ∀ method args,
     _request failing_close method args σ = delegate failing_close method args σm) ∧
  (let σm := emit [EvClose 0] (swapped σ) in
   _maybe_reset cancelled_close σ = (Raise CancelledError, σm) ∧
   reset cancelled_close σ = (Raise CancelledError, σm) ∧
   ∀ method args,
     _request cancelled_close method args σ = (Raise CancelledError, σm)).
Proof.
  split.
  - exact (proj1 (proj2 (close_exception_swallowed failing_close
                    (set_reset_requested true fresh_guard) 0 eq_refl eq_refl))
                 (PyExn DerivesException "OSError") eq_refl eq_refl).
  - exact (proj2 (proj2 (close_exception_swallowed cancelled_close
                    (set_reset_requested true fresh_guard) 0 eq_refl eq_refl))
                 CancelledError eq_refl eq_refl).
Defined.

(** *** Reset on status *)

Section Poison.
Context (tr : transport).

(** A request that returns a response did so from the session installed
    when [_maybe_reset] was through, as the last thing it did. *)
Lemma request_returns method args σ r σ1 :
  wf σ →
  _request tr method args σ = (Return r, σ1) →
  ∃ s σm,
    _maybe_reset tr σ = (Return (), σm) ∧
    _session σm = Some s ∧ s < next_sid σm ∧
    t_call tr (trace σm) s method args = Return r ∧
    σ1 = (if poisoned (_reset_on_status σ) r
          then set_reset_requested true (emit [EvCall s method args] σm)
          else emit [EvCall s method args] σm).
Proof.
  intros Hwf. rewrite request_unfold.
  destruct (_maybe_reset tr σ) as [[[]|e] σm] eqn:Hm; [|done].
  unfold delegate. destruct (_session σm) as [s|] eqn:Hs; [|done].
  destruct (t_call tr (trace σm) s method args) as [r'|e] eqn:Hcall; [|done].
  intros [= -> <-]. exists s, σm.
  rewrite <- (maybe_reset_codes tr _ _ _ Hm). split_and!; try done.
  apply maybe_reset_cases in Hm as [(_ & _ & ->)|(_ & evs & -> & _)].
  - by apply Hwf.
  - simpl in *. injection Hs as <-. lia.
Qed.

(** The request that finds the reset pending. *)
Lemma request_pending method args σ s o σ2 :
  _reset_requested σ = true →
  _session σ = Some s →
  _request tr method args σ = (o, σ2) →
  _session σ2 = Some (next_sid σ) ∧
  ∃ rest,
    trace σ2 =
      trace σ ++
      create_events (_session_kwargs σ) (_skip_proxy_ssl σ) (next_sid σ) ++ rest ∧
    constructed rest = [] ∧ closed rest = [s] ∧
    Forall (λ c, c = next_sid σ) (called rest) ∧
    (∀ r, o = Return r → called rest = [next_sid σ]).
Proof.
  intros Hreq Hs. rewrite request_unfold, maybe_reset_pending, Hs by done.
  assert (∀ o' σ',
    delegate tr method args (emit [EvClose s; EvLog reset_msg] (swapped σ)) = (o', σ') →
    _session σ' = Some (next_sid σ) ∧
    ∃ rest,
      trace σ' =
        trace σ ++
        create_events (_session_kwargs σ) (_skip_proxy_ssl σ) (next_sid σ) ++ rest ∧
      constructed rest = [] ∧ closed rest = [s] ∧
      Forall (λ c, c = next_sid σ) (called rest) ∧
      (∀ r, o' = Return r → called rest = [next_sid σ])) as Hdel.
  { intros o' σ'. unfold delegate. simpl.
    destruct (t_call tr _ (next_sid σ) method args) as [r|e]; intros [= <- <-].
    - split; [by destruct (poisoned _ r)|].
      exists [EvClose s; EvLog reset_msg; EvCall (next_sid σ) method args].
      split_and!; try done.
      + destruct (poisoned _ r); simpl; by rewrite <- !app_assoc.
      + by constructor.
    - split; [done|].
      exists [EvClose s; EvLog reset_msg; EvCall (next_sid σ) method args].
      split_and!; try done.
      + simpl. by rewrite <- !app_assoc.
      + by constructor. }
  destruct (t_close tr _ s) as [[]|e]; [apply Hdel|].
  destruct (isinstance_Exception e); [apply Hdel|].
  intros [= <- <-]. split; [done|]. exists [EvClose s].
  split_and!; try done. simpl. by rewrite <- !app_assoc.
Qed.

End Poison.

(** C1. A request whose response carries a status code of the poison set
    (non-empty, then) returns the very response the transport produced, as
    the last thing that happened; the session that answered is still
    installed, and the pending flag is set.  The next request reconstructs
    first: a new session is constructed before anything else, the session
    that produced the poison response is closed and never called, and the
    delegated call, which a request that returns a response has made, goes
    to the new session, a different object. *)
Theorem poison_response_defers_reset tr σ method args r σ1 :
  wf σ →
  _request tr method args σ = (Return r, σ1) →
  status_code r ∈ _reset_on_status σ →
  _reset_on_status σ ≠ ∅ ∧
  ∃ s pre,
    trace σ1 = pre ++ [EvCall s method args] ∧
    t_call tr pre s method args = Return r ∧
    _session σ1 = Some s ∧
    _reset_requested σ1 = true ∧
    ∀ method' args' o σ2,
      _request tr method' args' σ1 = (o, σ2) →
      let new_session := next_sid σ1 in
      new_session ≠ s ∧
      _session σ2 = Some new_session ∧
      ∃ rest,
        trace σ2 =
          trace σ1 ++
          create_events (_session_kwargs σ1) (_skip_proxy_ssl σ1) new_session ++ rest ∧
        constructed rest = [] ∧ closed rest = [s] ∧
        Forall (λ c, c = new_session) (called rest) ∧
        (∀ r', o = Return r' → called rest = [new_session]).
Proof.
  intros Hwf Hrun Hin.
  assert (_reset_on_status σ ≠ ∅) as Hne.
  { intros Hempty. rewrite Hempty in Hin. by apply not_elem_of_empty in Hin. }
  split; [done|].
  apply request_returns in Hrun as (s & σm & Hm & Hs & Hlt & Hcall & ->); [|done].
  assert (poisoned (_reset_on_status σ) r = true) as ->.
  { unfold poisoned. by rewrite !bool_decide_eq_true_2. }
  exists s, (trace σm). split_and!; try done.
  intros method' args' o σ2 Hnext. simpl.
  split; [lia|].
  by apply (request_pending tr method' args' _ s o σ2) in Hnext.
Qed.

Lemma poison_response_defers_reset_witness :
  let r := Response 403 "blocked" in
  let σ1 := set_reset_requested true (emit [EvCall 0 "get" "/"] fresh_guard) in
  _reset_on_status fresh_guard ≠ ∅ ∧
  ∃ s pre,
    trace σ1 = pre ++ [EvCall s "get" "/"] ∧
    t_call always_403 pre s "get" "/" = Return r ∧
    _session σ1 = Some s ∧
    _reset_requested σ1 = true ∧
    ∀ method' args' o σ2,
      _request always_403 method' args' σ1 = (o, σ2) →
      let new_session := next_sid σ1 in
      new_session ≠ s ∧
      _session σ2 = Some new_session ∧
      ∃ rest,
        trace σ2 =
          trace σ1 ++
          create_events (_session_kwargs σ1) (_skip_proxy_ssl σ1) new_session ++ rest ∧
        constructed rest = [] ∧ closed rest = [s] ∧
        Forall (λ c, c = new_session) (called rest) ∧
        (∀ r', o = Return r' → called rest = [new_session]).
Proof.
  apply (poison_response_defers_reset always_403 fresh_guard "get" "/"
           (Response 403 "blocked")).
  - intros s [= <-]. vm_compute. lia.
  - reflexivity.
  - compute_done.
Defined.

(** *** Sequences of calls *)

Section Sequences.
Context (tr : transport).

Lemma perform_state c σ :
  (perform tr c σ).2 =
    match c with
    | CallGet args => (_request tr "get" args σ).2
    | CallPost args => (_request tr "post" args σ).2
    | CallReset => (reset tr σ).2
    | CallClose => (close tr σ).2
    end.
Proof.
  destruct c as [args|args| |]; unfold perform, get, post;
    unfold mbind at 1, M_bind at 1.
  - by destruct (_request tr "get" args σ) as [[r|e] σ'].
  - by destruct (_request tr "post" args σ) as [[r|e] σ'].
  - by destruct (reset tr σ) as [[[]|e] σ'].
  - by destruct (close tr σ) as [[[]|e] σ'].
Qed.

Lemma perform_unfold c σ :
  perform tr c σ =
    match c with
    | CallGet args =>
        let (o, σ') := _request tr "get" args σ in
        (match o with Return r => Return (Some r) | Raise e => Raise e end, σ')
    | CallPost args =>
        let (o, σ') := _request tr "post" args σ in
        (match o with Return r => Return (Some r) | Raise e => Raise e end, σ')
    | CallReset =>
        let (o, σ') := reset tr σ in
        (match o with Return _ => Return None | Raise e => Raise e end, σ')
    | CallClose =>
        let (o, σ') := close tr σ in
        (match o with Return _ => Return None | Raise e => Raise e end, σ')
    end.
Proof.
  destruct c as [args|args| |]; unfold perform, get, post;
    unfold mbind at 1, M_bind at 1.
  - by destruct (_request tr "get" args σ) as [[r|e] σ'].
  - by destruct (_request tr "post" args σ) as [[r|e] σ'].
  - by destruct (reset tr σ) as [[[]|e] σ'].
  - by destruct (close tr σ) as [[[]|e] σ'].
Qed.

Lemma perform_all_app cs1 cs2 σ :
  perform_all tr (cs1 ++ cs2) σ = perform_all tr cs2 (perform_all tr cs1 σ).
Proof. revert σ. induction cs1 as [|c cs1 IH]; intros σ; simpl; [done|apply IH]. Qed.

(** What the delegated call leaves behind. *)
Lemma delegate_summary method args σm o σ' :
  delegate tr method args σm = (o, σ') →
  _session σ' = _session σm ∧ next_sid σ' = next_sid σm ∧
  _reset_on_status σ' = _reset_on_status σm ∧
  (_reset_requested σ' = true →
   _reset_requested σm = true ∨
   ∃ r, o = Return r ∧ poisoned (_reset_on_status σm) r = true) ∧
  trace σ' = trace σm ++
    match _session σm with
    | Some s => [EvCall s method args]
    | None => []
    end.
Proof.
  unfold delegate. destruct (_session σm) as [s|] eqn:Hs.
  - destruct (t_call tr (trace σm) s method args) as [r|e]; intros [= <- <-].
    + destruct (poisoned (_reset_on_status σm) r) eqn:Hp; simpl; rewrite ?Hs;
        split_and!; eauto.
    + simpl. rewrite Hs. split_and!; eauto.
  - intros [= <- <-]. rewrite Hs, app_nil_r. split_and!; eauto.
Qed.

(** What [_maybe_reset] leaves behind. *)
Lemma maybe_reset_summary σ o σm :
  _maybe_reset tr σ = (o, σm) →
  _reset_on_status σm = _reset_on_status σ ∧ _reset_requested σm = false ∧
  ∃ evs, trace σm = trace σ ++ evs ∧ called evs = [] ∧
    if _reset_requested σ
    then _session σm = Some (next_sid σ) ∧ next_sid σm = S (next_sid σ) ∧
         constructed evs = [next_sid σ] ∧ closed evs = option_list (_session σ)
    else _session σm = _session σ ∧ next_sid σm = next_sid σ ∧ evs = [].
Proof.
  intros Hm.
  apply maybe_reset_cases in Hm
    as [(Hreq & _ & ->)|(-> & evs & -> & Hc & Hcall & Hclosed & _)].
  - rewrite Hreq. split_and!; try done. exists []. by rewrite app_nil_r.
  - split_and!; try done.
    exists (create_events (_session_kwargs σ) (_skip_proxy_ssl σ) (next_sid σ) ++ evs).
    rewrite called_app, constructed_app, closed_app, called_create,
      constructed_create, closed_create, Hc, Hcall, Hclosed.
    split_and!; try done. simpl. by rewrite <- !app_assoc.
Qed.

(** With an empty poison set and no reset pending, a request is the
    delegated call and nothing else. *)
Lemma request_disabled method args σ :
  _reset_on_status σ = ∅ →
  _reset_requested σ = false →
  (_request tr method args σ).2 =
    match _session σ with
    | Some s => emit [EvCall s method args] σ
    | None => σ
    end.
Proof.
  intros Hcodes Hreq. rewrite request_unfold, maybe_reset_idle by done.
  unfold delegate. destruct (_session σ) as [s|]; [|done].
  destruct (t_call tr (trace σ) s method args) as [r|e]; [|done].
  unfold poisoned. rewrite Hcodes. by rewrite bool_decide_eq_false_2 by naive_solver.
Qed.

Lemma requests_disabled calls σ s :
  Forall (λ c, is_request c = true) calls →
  _reset_on_status σ = ∅ →
  _reset_requested σ = false →
  _session σ = Some s →
  let σ2 := perform_all tr calls σ in
  _session σ2 = Some s ∧ _reset_requested σ2 = false ∧ next_sid σ2 = next_sid σ ∧
  ∃ evs, trace σ2 = trace σ ++ evs ∧
    constructed evs = [] ∧ closed evs = [] ∧
    called evs = replicate (length calls) s.
Proof.
  intros Hcalls. revert σ.
  induction Hcalls as [|c calls Hc _ IH]; intros σ Hcodes Hreq Hs; simpl.
  { split_and!; try done. exists []. by rewrite app_nil_r. }
  assert (∃ method args,
    (perform tr c σ).2 = emit [EvCall s method args] σ) as (method & args & Hstep).
  { rewrite perform_state. destruct c as [args|args| |]; try done.
    - exists "get", args. by rewrite request_disabled, Hs.
    - exists "post", args. by rewrite request_disabled, Hs. }
  rewrite Hstep.
  destruct (IH (emit [EvCall s method args] σ)) as (? & ? & ? & evs & Htr & ? & ? & Hcalled);
    try done.
  split_and!; try done.
  exists (EvCall s method args :: evs). split_and!; try done.
  - rewrite Htr. simpl. by rewrite <- app_assoc.
  - simpl. by rewrite Hcalled.
Qed.

End Sequences.

(** C4. A request whose response carries a status code outside the poison
    set leaves the pending flag unset, so that the request after it
    reconstructs nothing.  When the poison set is empty that is every
    response, 403 included, and the requests that follow, whatever they are
    answered, all go to the same session: none is constructed, none is
    closed. *)
Theorem clean_response_arms_nothing tr σ method args r σ1 :
  _request tr method args σ = (Return r, σ1) →
  status_code r ∉ _reset_on_status σ →
  _reset_requested σ1 = false ∧
  _maybe_reset tr σ1 = (Return (), σ1) ∧
  (_reset_on_status σ = ∅ →
   ∀ calls, Forall (λ c, is_request c = true) calls →
     let σ2 := perform_all tr calls σ1 in
     _session σ2 = _session σ1 ∧ _reset_requested σ2 = false ∧
     ∃ s evs, _session σ1 = Some s ∧ trace σ2 = trace σ1 ++ evs ∧
       constructed evs = [] ∧ closed evs = [] ∧
       called evs = replicate (length calls) s).
Proof.
  intros Hrun Hnotin. rewrite request_unfold in Hrun.
  destruct (_maybe_reset tr σ) as [[[]|e] σm] eqn:Hm; [|done].
  pose proof (maybe_reset_clears tr _ _ _ Hm) as Hclr.
  pose proof (maybe_reset_codes tr _ _ _ Hm) as Hcodes.
  unfold delegate in Hrun. destruct (_session σm) as [s|] eqn:Hs; [|done].
  destruct (t_call tr (trace σm) s method args) as [r'|e]; [|done].
  injection Hrun as -> <-.
  assert (poisoned (_reset_on_status σm) r = false) as ->.
  { unfold poisoned. rewrite Hcodes.
    rewrite (bool_decide_eq_false_2 (status_code r ∈ _)) by done.
    apply andb_false_r. }
  assert (_reset_requested (emit [EvCall s method args] σm) = false) as Hflag by done.
  split_and!; [done|by apply maybe_reset_idle|].
  intros Hempty calls Hcalls.
  destruct (requests_disabled tr calls (emit [EvCall s method args] σm) s)
    as (Hs2 & Hr2 & _ & evs & Htr & ? & ? & ?); try done.
  { simpl. congruence. }
  cbv zeta. rewrite Hs2. split_and!; try done.
  exists s, evs. by split_and!.
Qed.

Lemma clean_response_arms_nothing_witness :
  let σ := __init__ (Config None false None) (Some (CodesIter [])) [] 0 [] in
  let σ1 := emit [EvCall 0 "get" "/"] σ in
  _reset_requested σ1 = false ∧
  _maybe_reset always_403 σ1 = (Return (), σ1) ∧
  ∀ calls, Forall (λ c, is_request c = true) calls →
    let σ2 := perform_all always_403 calls σ1 in
    _session σ2 = _session σ1 ∧ _reset_requested σ2 = false ∧
    ∃ s evs, _session σ1 = Some s ∧ trace σ2 = trace σ1 ++ evs ∧
      constructed evs = [] ∧ closed evs = [] ∧
      called evs = replicate (length calls) s.
Proof.
  destruct (clean_response_arms_nothing always_403
    (__init__ (Config None false None) (Some (CodesIter [])) [] 0 [])
    "get" "/" (Response 403 "blocked") _ eq_refl) as (H1 & H2 & H3).
  { compute_done. }
  split_and!; [exact H1|exact H2|]. apply H3. reflexivity.
Defined.

(** *** Explicit reset *)

Section Retired.
Context (tr : transport) (old : sid).
Local Abbreviation retired := (retired old).

Lemma retired_delegate method args σm o σ' :
  retired σm →
  delegate tr method args σm = (o, σ') →
  retired σ' ∧ ∃ evs, trace σ' = trace σm ++ evs ∧ old ∉ called evs.
Proof.
  intros [Hlt Hses] (Hs & Hn & _ & _ & Htr)%delegate_summary. split.
  - split; [lia|]. intros s. rewrite Hs, Hn. apply Hses.
  - eexists; split; [done|]. destruct (_session σm) as [s|] eqn:Heq; simpl.
    + destruct (Hses s eq_refl) as [Hne _].
      rewrite list_elem_of_singleton. congruence.
    + apply not_elem_of_nil.
Qed.

Lemma retired_maybe_reset σ o σm :
  retired σ →
  _maybe_reset tr σ = (o, σm) →
  retired σm ∧ ∃ evs, trace σm = trace σ ++ evs ∧ old ∉ called evs.
Proof.
  intros [Hlt Hses] (_ & _ & evs & Htr & Hcalled & Hrest)%maybe_reset_summary.
  split.
  - destruct (_reset_requested σ).
    + destruct Hrest as (Hs & Hn & _). split; [lia|].
      intros s. rewrite Hs, Hn. intros [= <-]. lia.
    + destruct Hrest as (Hs & Hn & _). split; [lia|].
      intros s. rewrite Hs, Hn. apply Hses.
  - exists evs. rewrite Hcalled. split; [done|]. apply not_elem_of_nil.
Qed.

Lemma retired_flag b σ : retired σ → retired (set_reset_requested b σ).
Proof. done. Qed.

Lemma retired_perform c σ :
  retired σ →
  retired (perform tr c σ).2 ∧
  ∃ evs, trace (perform tr c σ).2 = trace σ ++ evs ∧ old ∉ called evs.
Proof.
  intros Hret. rewrite perform_state.
  assert (∀ method args,
    retired (_request tr method args σ).2 ∧
    ∃ evs, trace (_request tr method args σ).2 = trace σ ++ evs ∧ old ∉ called evs)
    as Hrequest.
  { intros method args. rewrite request_unfold.
    destruct (_maybe_reset tr σ) as [[[]|e] σm] eqn:Hm.
    - apply retired_maybe_reset in Hm as (Hretm & evs1 & Htr1 & Hc1); [|done].
      destruct (delegate tr method args σm) as [o' σ'] eqn:Hd.
      apply retired_delegate in Hd as (Hret' & evs2 & Htr2 & Hc2); [|done].
      split; [done|]. exists (evs1 ++ evs2). simpl.
      rewrite Htr2, Htr1, called_app, <- app_assoc. split; [done|].
      by apply not_elem_of_app.
    - by apply retired_maybe_reset in Hm. }
  destruct c as [args|args| |]; [apply Hrequest..| |].
  - rewrite reset_unfold.
    destruct (_maybe_reset tr (set_reset_requested true σ)) as [o σm] eqn:Hm.
    by apply retired_maybe_reset in Hm.
  - rewrite close_unfold. destruct Hret as [Hlt Hses].
    destruct (_session σ) as [s|] eqn:Hs; simpl.
    + split; [split; [done|intros s' Hs'; by simpl in Hs']|].
      exists [EvClose s]. split; [done|]. apply not_elem_of_nil.
    + split; [split; [done|intros s' Hs'; congruence]|].
      exists []. rewrite app_nil_r. split; [done|]. apply not_elem_of_nil.
Qed.

Lemma retired_perform_all calls σ :
  retired σ →
  retired (perform_all tr calls σ) ∧
  ∃ evs, trace (perform_all tr calls σ) = trace σ ++ evs ∧ old ∉ called evs.
Proof.
  revert σ. induction calls as [|c calls IH]; intros σ Hret; simpl.
  { split; [done|]. exists []. rewrite app_nil_r. split; [done|].
    apply not_elem_of_nil. }
  destruct (retired_perform c σ Hret) as (Hret1 & evs1 & Htr1 & Hc1).
  destruct (IH _ Hret1) as (Hret2 & evs2 & Htr2 & Hc2).
  split; [done|]. exists (evs1 ++ evs2).
  rewrite Htr2, Htr1, called_app, <- app_assoc. split; [done|].
  by apply not_elem_of_app.
Qed.

End Retired.

(** C8. [reset()] replaces the session before it is through: when it
    comes back, by return or by a raise, the guard holds a newly
    constructed session, a different object from the one it held when
    [reset()] was called; and whatever calls follow, requests, resets or
    closes, in any number and with any outcome, none of them delegates a
    request to the session of before. *)
Theorem reset_retires_session tr σ old calls :
  wf σ →
  _session σ = Some old →
  let σ1 := (reset tr σ).2 in
  let σ2 := perform_all tr calls σ1 in
  _session σ1 = Some (next_sid σ) ∧ next_sid σ ≠ old ∧
  ((reset tr σ).1 = Return () ∨
   ∃ e, (reset tr σ).1 = Raise e ∧ isinstance_Exception e = false) ∧
  ∃ evs, trace σ2 = trace σ1 ++ evs ∧ old ∉ called evs.
Proof.
  intros Hwf Hs. cbv zeta. specialize (Hwf old Hs).
  rewrite reset_unfold.
  destruct (_maybe_reset tr (set_reset_requested true σ)) as [o σ1] eqn:Hm.
  pose proof Hm as
    [(? & _)|(_ & evs & -> & _ & _ & _ & Ho)]%maybe_reset_cases; [done|].
  simpl. split_and!; [done|lia| |].
  - destruct Ho as [->|(old' & e & _ & -> & _ & He)]; eauto.
  - apply retired_perform_all. split; simpl; [lia|].
    intros s [= <-]. lia.
Qed.

Lemma reset_retires_session_witness :
  let σ1 := (reset always_403 fresh_guard).2 in
  let σ2 := perform_all always_403 [CallGet "/a"; CallPost "/b"; CallGet "/c"] σ1 in
  _session σ1 = Some 1 ∧ 1 ≠ 0 ∧
  ((reset always_403 fresh_guard).1 = Return () ∨
   ∃ e, (reset always_403 fresh_guard).1 = Raise e ∧ isinstance_Exception e = false) ∧
  ∃ evs, trace σ2 = trace σ1 ++ evs ∧ 0 ∉ called evs.
Proof.
  apply (reset_retires_session always_403 fresh_guard 0
           [CallGet "/a"; CallPost "/b"; CallGet "/c"]).
  - intros s [= <-]. vm_compute. lia.
  - reflexivity.
Defined.

End Alone.

(** ** Many tasks on one event loop *)

Module Interleaved.
Import Tasks Examples.

(** *** The two readings of the code agree *)

(** A call run as a task on its own, the lock free, goes through at most
    three suspension points and ends where the call read as a function
    ends: same outcome, same machine, lock released. *)
Lemma alone_agrees tr c σ :
  run_alone tr 4 (Ready c) σ false =
    (Done (ResettableSession.perform tr c σ).1,
     (ResettableSession.perform tr c σ).2, false).
Proof.
  assert (∀ method args,
    (let '(t, σ', l) := enter_maybe_reset false (KDelegate method args) σ false in
     run_alone tr 3 t σ' l) =
    (Done (match ResettableSession._request tr method args σ with
           | (Return r, _) => Return (Some r)
           | (Raise e, _) => Raise e
           end),
     (ResettableSession._request tr method args σ).2, false)) as Hrequest.
  { intros method args. rewrite Alone.request_unfold.
    unfold enter_maybe_reset, locked_section, ResettableSession.delegate.
    destruct (_reset_requested σ) eqn:Hreq; simpl.
    - rewrite Alone.maybe_reset_pending by done.
      destruct (_session σ) as [old|] eqn:Hold; simpl.
      + rewrite removelast_last.
        change (trace σ ++ create_events (_session_kwargs σ) (_skip_proxy_ssl σ) (next_sid σ))
          with (trace (swapped σ)).
        destruct (t_close tr (trace (swapped σ)) old) as [[]|e]; simpl.
        * rewrite removelast_last, <- !app_assoc. simpl.
          destruct (t_call tr _ (next_sid σ) method args) as [r|e];
            simpl; [destruct (poisoned _ r)|]; simpl;
            unfold emit, set_reset_requested; simpl;
            by rewrite <- ?app_assoc.
        * destruct (isinstance_Exception e); simpl; [|done].
          rewrite removelast_last, <- !app_assoc. simpl.
          destruct (t_call tr _ (next_sid σ) method args) as [r|e'];
            simpl; [destruct (poisoned _ r)|]; simpl;
            unfold emit, set_reset_requested; simpl;
            by rewrite <- ?app_assoc.
      + rewrite removelast_last.
        destruct (t_call tr _ (next_sid σ) method args) as [r|e];
          simpl; [destruct (poisoned _ r)|]; simpl; done.
    - rewrite Alone.maybe_reset_idle by done.
      destruct (_session σ) as [s|] eqn:Hs; simpl; [|done].
      rewrite removelast_last.
      by destruct (t_call tr (trace σ) s method args) as [r|e];
        simpl; [destruct (poisoned _ r)|]. }
  rewrite Alone.perform_unfold. destruct c as [args|args| |].
  - specialize (Hrequest "get" args).
    change (run_alone tr 4 (Ready (CallGet args)) σ false) with
      (let '(t, σ', l) := enter_maybe_reset false (KDelegate "get" args) σ false in
       run_alone tr 3 t σ' l).
    rewrite Hrequest.
    by destruct (ResettableSession._request tr "get" args σ) as [[r|e] σ'].
  - specialize (Hrequest "post" args).
    change (run_alone tr 4 (Ready (CallPost args)) σ false) with
      (let '(t, σ', l) := enter_maybe_reset false (KDelegate "post" args) σ false in
       run_alone tr 3 t σ' l).
    rewrite Hrequest.
    by destruct (ResettableSession._request tr "post" args σ) as [[r|e] σ'].
  - rewrite Alone.reset_unfold, Alone.maybe_reset_pending by done.
    unfold run_alone, step_task, enter_maybe_reset, locked_section. simpl.
    destruct (_session σ) as [old|] eqn:Hold; simpl; [|done].
    rewrite removelast_last.
    change (trace σ ++ create_events (_session_kwargs σ) (_skip_proxy_ssl σ) (next_sid σ))
      with (trace (swapped σ)).
    destruct (t_close tr (trace (swapped σ)) old) as [[]|e]; simpl;
      [unfold emit; simpl; by rewrite <- ?app_assoc|].
    destruct (isinstance_Exception e); simpl; [|done].
    unfold emit; simpl; by rewrite <- ?app_assoc.
  - rewrite Alone.close_unfold.
    unfold run_alone, step_task. simpl.
    destruct (_session σ) as [s|] eqn:Hs; simpl; [|done].
    rewrite removelast_last. by destruct (t_close tr (trace σ) s) as [[]|e].
Qed.

(** *** Counting the tasks inside the reconstruction sequence *)

Lemma reconstructors_insert (ts : list task) n t t' :
  ts !! n = Some t →
  length (filter (λ t, reconstructing t = true) (<[n := t']> ts)) +
    Nat.b2n (reconstructing t) =
  length (filter (λ t, reconstructing t = true) ts) +
    Nat.b2n (reconstructing t').
Proof.
  revert n. induction ts as [|t0 ts IH]; intros [|n] Hn; try done; simpl in *.
  - injection Hn as ->. rewrite !filter_cons.
    destruct (reconstructing t), (reconstructing t'); simpl;
      repeat case_decide; simpl; try done; lia.
  - specialize (IH n Hn). rewrite !filter_cons.
    case_decide; simpl; lia.
Qed.

Lemma reconstructing_locked Σ n t :
  exclusive Σ → tasks Σ !! n = Some t → reconstructing t = true → locked Σ = true.
Proof.
  unfold exclusive, reconstructors. intros Hex Hn Ht.
  assert (0 < length (filter (λ t, reconstructing t = true) (tasks Σ))) as Hpos.
  { assert (t ∈ filter (λ t, reconstructing t = true) (tasks Σ)) as Hin.
    { apply list_elem_of_filter. split; [done|]. by eapply list_elem_of_lookup_2. }
    destruct (filter _ (tasks Σ)); [by apply elem_of_nil in Hin|simpl; lia]. }
  destruct (locked Σ); [done|simpl in Hex; lia].
Qed.

(** *** One block of one task *)

Lemma after_maybe_reset_task k σ :
  reconstructing (after_maybe_reset k σ).1 = false ∧
  past_reset (after_maybe_reset k σ).1 = true ∧
  never_closes (after_maybe_reset k σ).1 = true.
Proof. destruct k as [method args|]; simpl; [|done]. by destruct (_session σ). Qed.

Lemma after_maybe_reset_machine k σ :
  let σ' := (after_maybe_reset k σ).2 in
  _reset_requested σ' = _reset_requested σ ∧
  _session σ' = _session σ ∧ next_sid σ' = next_sid σ ∧
  ∃ evs, trace σ' = trace σ ++ evs ∧ constructed evs = [] ∧ closed evs = [].
Proof.
  destruct k as [method args|]; simpl.
  - destruct (_session σ) as [s|] eqn:Hs; simpl; split_and!; try done.
    + by exists [EvCall s method args].
    + exists []. by rewrite app_nil_r.
  - split_and!; try done. exists []. by rewrite app_nil_r.
Qed.

(** Every way a block can go, one goal each. *)
Ltac step_cases H :=
  unfold step_task, enter_maybe_reset, locked_section, finish_reset,
    after_maybe_reset in H;
  repeat match type of H with
  | context [match ?x with _ => _ end] => destruct x eqn:?; simpl in H
  end;
  simplify_eq;
  repeat match goal with
  | Hb : negb _ = false |- _ => apply negb_false_iff in Hb
  | Hb : negb _ = true |- _ => apply negb_true_iff in Hb
  | Hb : _ || _ = false |- _ => apply orb_false_iff in Hb as [? ?]
  end;
  simplify_eq.

Lemma constructions_swapped σ :
  length (constructed (trace (swapped σ))) = S (length (constructed (trace σ))).
Proof.
  rewrite Alone.trace_swapped, Alone.constructed_app, Alone.constructed_create,
    length_app. simpl. lia.
Qed.

Lemma constructed_snoc l e :
  constructed (l ++ [e]) =
    constructed l ++ match e with EvConstruct s _ => [s] | _ => [] end.
Proof. rewrite Alone.constructed_app. by destruct e. Qed.

Lemma closed_snoc l e :
  closed (l ++ [e]) = closed l ++ match e with EvClose s => [s] | _ => [] end.
Proof. rewrite Alone.closed_app. by destruct e. Qed.

Ltac count_events :=
  simpl;
  rewrite ?Alone.constructed_app, ?Alone.constructed_create, ?length_app;
  simpl;
  repeat match goal with
  | |- context [_reset_requested ?σ] => destruct (_reset_requested σ) eqn:?
  end;
  simplify_eq/=.

(** The lock goes with the task that is in the sequence. *)
Lemma step_task_lock i t σ l t' σ' l' :
  (reconstructing t = true → l = true) →
  step_task i t σ l = Some (t', σ', l') →
  Nat.b2n (reconstructing t') + Nat.b2n l = Nat.b2n l' + Nat.b2n (reconstructing t).
Proof.
  intros Hheld H. step_cases H; simpl in *; try done; try lia;
    rewrite ?Hheld by done; simpl; lia.
Qed.

(** A pending reset is either still pending or has been turned into one
    construction, unless [close()] dropped it; it comes from an arming. *)
Lemma step_task_account i t σ l t' σ' l' :
  step_task i t σ l = Some (t', σ', l') →
  length (constructed (trace σ')) + Nat.b2n (_reset_requested σ') +
    Nat.b2n (drops t i σ) =
  length (constructed (trace σ)) + Nat.b2n (_reset_requested σ) +
    Nat.b2n (arms t i σ).
Proof.
  intros H. unfold arms, drops.
  step_cases H; count_events; lia.
Qed.

(** A task that goes through [_maybe_reset] leaves no reset pending. *)
Lemma step_task_through i t σ l t' σ' l' :
  step_task i t σ l = Some (t', σ', l') →
  before_reset t = true → past_reset t' = true →
  _reset_requested σ' = false.
Proof. intros H. step_cases H; simpl in *; try done. Qed.

Lemma step_task_constructions i t σ l t' σ' l' :
  step_task i t σ l = Some (t', σ', l') →
  length (constructed (trace σ)) ≤ length (constructed (trace σ')).
Proof.
  intros H. step_cases H; simpl;
    rewrite ?Alone.constructed_app, ?Alone.constructed_create, ?length_app;
    simpl; lia.
Qed.

(** Tasks only move forward. *)
Lemma step_task_forward i t σ l t' σ' l' :
  step_task i t σ l = Some (t', σ', l') →
  past_reset t = true → past_reset t' = true.
Proof. intros H. step_cases H; simpl in *; try done. Qed.

(** *** One step of the system *)

Lemma step_inv n i Σ Σ' :
  step n i Σ = Some Σ' →
  ∃ t t', tasks Σ !! n = Some t ∧
    step_task i t (shared Σ) (locked Σ) = Some (t', shared Σ', locked Σ') ∧
    tasks Σ' = <[n := t']> (tasks Σ).
Proof.
  unfold step. destruct (tasks Σ !! n) as [t|] eqn:Hn; simpl; [|done].
  destruct (step_task i t (shared Σ) (locked Σ)) as [[[t' σ'] l']|] eqn:Ht;
    simpl; [|done].
  intros [= <-]. eauto.
Qed.

Lemma step_other n i Σ Σ' m :
  step n i Σ = Some Σ' → m ≠ n → tasks Σ' !! m = tasks Σ !! m.
Proof.
  intros (t & t' & _ & _ & ->)%step_inv Hne. by apply list_lookup_insert_ne.
Qed.

Lemma step_exclusive n i Σ Σ' :
  exclusive Σ → step n i Σ = Some Σ' → exclusive Σ'.
Proof.
  intros Hex Hstep. pose proof Hstep as (t & t' & Hn & Ht & Hts)%step_inv.
  apply step_task_lock in Ht; [|by apply (reconstructing_locked Σ n)].
  unfold exclusive, reconstructors in *. rewrite Hts.
  pose proof (reconstructors_insert (tasks Σ) n t t' Hn). lia.
Qed.

Lemma step_account n i Σ Σ' :
  step n i Σ = Some Σ' →
  constructions Σ' + Nat.b2n (pending Σ') + count_step drops n i Σ =
  constructions Σ + Nat.b2n (pending Σ) + count_step arms n i Σ.
Proof.
  intros (t & t' & Hn & Ht & _)%step_inv. unfold count_step. rewrite Hn.
  apply step_task_account in Ht. unfold constructions, pending.
  destruct (drops t i (shared Σ)), (arms t i (shared Σ)); simpl in *; lia.
Qed.

(** *** Schedules *)

Lemma run_exclusive sched Σ Σ' :
  exclusive Σ → run sched Σ = Some Σ' → exclusive Σ'.
Proof.
  revert Σ. induction sched as [|[n i] sched IH]; intros Σ Hex; simpl.
  { by intros [= <-]. }
  destruct (step n i Σ) as [Σ1|] eqn:Hstep; simpl; [|done].
  apply IH. by eapply step_exclusive.
Qed.

Lemma run_account sched Σ Σ' :
  run sched Σ = Some Σ' →
  constructions Σ' + Nat.b2n (pending Σ') + count_run drops sched Σ =
  constructions Σ + Nat.b2n (pending Σ) + count_run arms sched Σ.
Proof.
  revert Σ. induction sched as [|[n i] sched IH]; intros Σ; simpl.
  { intros [= <-]. lia. }
  destruct (step n i Σ) as [Σ1|] eqn:Hstep; simpl; [|done].
  intros Hrun. specialize (IH _ Hrun). apply step_account in Hstep. lia.
Qed.

Lemma run_constructions sched Σ Σ' :
  run sched Σ = Some Σ' → constructions Σ ≤ constructions Σ'.
Proof.
  revert Σ. induction sched as [|[n i] sched IH]; intros Σ; simpl.
  { by intros [= <-]. }
  destruct (step n i Σ) as [Σ1|] eqn:Hstep; simpl; [|done].
  intros Hrun. specialize (IH _ Hrun).
  apply step_inv in Hstep as (t & t' & _ & Ht & _).
  apply step_task_constructions in Ht. unfold constructions in *. lia.
Qed.

(** Where nothing arms the flag and nothing drops it, a task that has gone
    through [_maybe_reset] during the schedule left the flag cleared for
    good. *)
Lemma run_through sched Σ Σ' n t0 t :
  run sched Σ = Some Σ' →
  count_run arms sched Σ = 0 →
  tasks Σ !! n = Some t0 → before_reset t0 = true →
  tasks Σ' !! n = Some t → past_reset t = true →
  pending Σ' = false.
Proof.
  revert Σ t0. induction sched as [|[m i] sched IH]; intros Σ t0; simpl.
  { intros [= <-] _ H0 Hb Ht Hp. rewrite H0 in Ht. injection Ht as ->.
    by destruct t. }
  destruct (step m i Σ) as [Σ1|] eqn:Hstep; simpl; [|done].
  intros Hrun Hquiet H0 Hb Ht Hp.
  assert (count_run arms sched Σ1 = 0) as Hquiet1 by lia.
  destruct (tasks Σ1 !! n) as [t1|] eqn:H1.
  2:{ apply step_inv in Hstep as (? & ? & _ & _ & Hts).
      rewrite Hts in H1. apply lookup_ge_None in H1.
      rewrite length_insert in H1. apply lookup_lt_Some in H0. lia. }
  destruct (before_reset t1) eqn:Hb1; [by eapply IH|].
  (* the task went through in this very step: the flag is down, and stays *)
  assert (pending Σ1 = false) as Hdown.
  { destruct (decide (n = m)) as [->|Hne].
    - apply step_inv in Hstep as (t0' & t1' & Hn & Hstep & Hts).
      rewrite Hts in H1.
      rewrite list_lookup_insert_eq in H1 by (by eapply lookup_lt_Some).
      simplify_eq. eapply step_task_through; [done..|].
      clear -Hstep Hb Hb1. step_cases Hstep; simpl in *; try done.
    - rewrite (step_other _ _ _ _ n Hstep Hne) in H1. congruence. }
  pose proof (run_account _ _ _ Hrun) as Hacc.
  pose proof (run_constructions _ _ _ Hrun) as Hmono.
  rewrite Hquiet1, Hdown in Hacc. simpl in Hacc.
  destruct (pending Σ'); [simpl in Hacc; lia|done].
Qed.

Lemma contended_reached : run arming_schedule five_requests = Some contended.
Proof. by vm_compute. Qed.

Lemma settled_reached : run settling_schedule contended = Some settled.
Proof. by vm_compute. Qed.

(** C5, as stated, fails: a pending reset need not lead to any
    reconstruction.  A second 403 arrives while request 0 is reconstructing;
    request 1 sees the flag, finds the lock held and queues.  [close()] then
    runs, and its [finally] puts the flag down.  When request 1 gets the
    lock it finds the flag cleared and does nothing: every task is done,
    the flag is down, nothing armed it again, and not one session has been
    constructed since the reset was pending. *)
Lemma pending_reset_dropped_by_close :
  ∃ Σ1 Σ2,
    run observing_schedule requests_and_close = Some Σ1 ∧
    pending Σ1 = true ∧
    tasks Σ1 !! 1 = Some (WaitLock (KDelegate "get" "/b")) ∧
    run dropping_schedule Σ1 = Some Σ2 ∧
    Forall (λ t, is_done t = true) (tasks Σ2) ∧
    pending Σ2 = false ∧
    count_run arms dropping_schedule Σ1 = 0 ∧
    count_run drops dropping_schedule Σ1 = 1 ∧
    constructions Σ2 = constructions Σ1.
Proof.
  eexists _, _. split; [vm_compute; reflexivity|].
  split; [reflexivity|]. split; [reflexivity|].
  split; [vm_compute; reflexivity|].
  split; [repeat (apply Forall_cons_2; [reflexivity|]); apply Forall_nil_2|].
  by vm_compute.
Qed.

(** C5, amended. Along any schedule of any tasks: the lock is held exactly
    while one task is inside the reconstruction sequence, so no two are at
    once; the constructions made, plus the reset still pending if there is
    one, plus the pending resets dropped by the [finally] of [close()],
    equal the pending reset there was at the start plus the armings of the
    flag since; hence for one pending episode, with no further arming and
    no [close()] dropping it, at most one construction is made however many
    tasks are in or before [_maybe_reset], and exactly one (flag cleared)
    as soon as one of them has come out of it; and a task that gets the
    lock and finds the flag already cleared releases the lock and goes on,
    nothing constructed, closed or logged. *)
Theorem one_reconstruction_per_episode Σ0 sched Σ :
  exclusive Σ0 →
  run sched Σ0 = Some Σ →
  (exclusive Σ ∧ reconstructors Σ ≤ 1) ∧
  constructions Σ + Nat.b2n (pending Σ) + count_run drops sched Σ0 =
    constructions Σ0 + Nat.b2n (pending Σ0) + count_run arms sched Σ0 ∧
  (pending Σ0 = true →
   count_run arms sched Σ0 = 0 →
   count_run drops sched Σ0 = 0 →
   constructions Σ ≤ S (constructions Σ0) ∧
   ∀ n t0 t,
     tasks Σ0 !! n = Some t0 → before_reset t0 = true →
     tasks Σ !! n = Some t → past_reset t = true →
     pending Σ = false ∧ constructions Σ = S (constructions Σ0)) ∧
  (∀ n k yield,
     tasks Σ !! n = Some (WaitLock k) →
     locked Σ = false → pending Σ = false →
     step n (Go yield) Σ =
       Some (System (after_maybe_reset k (shared Σ)).2 false
               (<[n := (after_maybe_reset k (shared Σ)).1]> (tasks Σ)))).
Proof.
  intros Hex Hrun.
  pose proof (run_exclusive _ _ _ Hex Hrun) as Hex'.
  pose proof (run_account _ _ _ Hrun) as Hacc.
  split_and!.
  - done.
  - unfold exclusive in Hex'. rewrite Hex'. by destruct (locked Σ); simpl; lia.
  - done.
  - intros Hpend Harms Hdrops. rewrite Hpend, Harms, Hdrops in Hacc. simpl in Hacc.
    split; [lia|]. intros n t0 t H0 Hb Ht Hp.
    pose proof (run_through _ _ _ n t0 t Hrun Harms H0 Hb Ht Hp) as Hdown.
    rewrite Hdown in Hacc. simpl in Hacc. split; [done|lia].
  - intros n k yield Hn Hfree Hidle. unfold step. rewrite Hn. simpl.
    unfold pending in Hidle. rewrite Hfree. unfold locked_section.
    rewrite Hidle. simpl.
    by destruct (after_maybe_reset k (shared Σ)).
Qed.

Lemma queued_reached : run queueing_schedule contended = Some queued.
Proof. by vm_compute. Qed.

(** From [contended], where a reset is pending, to [queued]: requests 0 and
    1 have come out of [_maybe_reset], one session was constructed, and
    request 2, queued at the lock, finds the flag cleared. *)
Lemma one_reconstruction_per_episode_witness :
  (exclusive queued ∧ reconstructors queued ≤ 1) ∧
  constructions queued + Nat.b2n (pending queued) +
    count_run drops queueing_schedule contended =
    constructions contended + Nat.b2n (pending contended) +
    count_run arms queueing_schedule contended ∧
  (constructions queued ≤ S (constructions contended) ∧
   pending queued = false ∧
   constructions queued = S (constructions contended)) ∧
  step 2 (Go false) queued =
    Some (System (after_maybe_reset (KDelegate "post" "/c") (shared queued)).2
            false
            (<[2 := (after_maybe_reset (KDelegate "post" "/c") (shared queued)).1]>
               (tasks queued))).
Proof.
  destruct (one_reconstruction_per_episode contended queueing_schedule queued)
    as (H1 & H2 & H3 & H4).
  - reflexivity.
  - vm_compute. reflexivity.
  - split; [exact H1|]. split; [exact H2|]. split.
    + destruct H3 as [Hle Hone]; [vm_compute; reflexivity..|].
      split; [exact Hle|].
      apply (Hone 1 (Ready (CallGet "/b")) (AwaitResponse 2 "get" "/b"));
        reflexivity.
    + apply (H4 2 (KDelegate "post" "/c") false); reflexivity.
Defined.

(** *** The session the guard holds *)

Lemma holds_live_ext σ σ' evs :
  holds_live σ →
  _session σ' = _session σ → next_sid σ' = next_sid σ →
  trace σ' = trace σ ++ evs → closed evs = [] →
  holds_live σ'.
Proof.
  intros [(s & Hs & Hlt & Hnc) Hall] Hs' Hn' Htr Hcl.
  unfold holds_live. rewrite Hs', Hn', Htr, Alone.closed_app, Hcl, app_nil_r.
  eauto.
Qed.

(** Lines 57-61: the fresh session is none of the closed ones, and the one
    whose close is then called is no longer held. *)
Lemma holds_live_swapped σ old :
  holds_live σ → _session σ = Some old →
  holds_live (emit [EvClose old] (swapped σ)).
Proof.
  intros [(s & Hs & Hlt & Hnc) Hall] Hold. simplify_eq.
  unfold holds_live. simpl.
  rewrite !Alone.closed_app, Alone.closed_create, app_nil_r. simpl. split.
  - exists (next_sid σ). split_and!; [done|lia|].
    rewrite elem_of_app, list_elem_of_singleton. intros [Hin|Heq]; [|lia].
    rewrite Forall_forall in Hall. specialize (Hall _ Hin). lia.
  - apply Forall_app. split.
    + eapply Forall_impl; [done|]. simpl. lia.
    + apply Forall_singleton. lia.
Qed.

Lemma after_maybe_reset_live k σ :
  holds_live σ → holds_live (after_maybe_reset k σ).2.
Proof.
  intros Hlive.
  destruct (after_maybe_reset_machine k σ) as (_ & Hs & Hn & evs & Htr & _ & Hcl).
  by eapply holds_live_ext.
Qed.

Lemma finish_reset_live k σ t' σ' l' :
  holds_live σ → finish_reset k σ = (t', σ', l') →
  never_closes t' = true ∧ holds_live σ' ∧ _session σ' = _session σ.
Proof.
  unfold finish_reset. intros Hlive [= Hafter <-].
  pose proof (after_maybe_reset_task k (emit [EvLog reset_msg] σ)) as (_ & _ & Ht).
  pose proof (after_maybe_reset_live k (emit [EvLog reset_msg] σ)) as Hl.
  pose proof (after_maybe_reset_machine k (emit [EvLog reset_msg] σ)) as (_ & Hs & _).
  rewrite Hafter in Ht, Hl, Hs. simpl in *. split_and!; [done| |done].
  apply Hl. by eapply (holds_live_ext σ _ [EvLog reset_msg]).
Qed.

(** A block either leaves the handle alone or is the swap of lines 57-61. *)
Lemma locked_section_live k σ t' σ' l' :
  holds_live σ → locked_section k σ = (t', σ', l') →
  never_closes t' = true ∧ holds_live σ' ∧
  (_session σ' = _session σ ∨
   ∃ old, _session σ = Some old ∧ _session σ' = Some (next_sid σ) ∧
     t' = AwaitClose k old ∧ l' = true ∧
     trace σ' =
       trace σ ++
       create_events (_session_kwargs σ) (_skip_proxy_ssl σ) (next_sid σ) ++
       [EvClose old]).
Proof.
  intros Hlive. unfold locked_section.
  destruct (_reset_requested σ); simpl.
  - destruct (_session σ) as [old|] eqn:Hold.
    + intros [= <- <- <-]. split; [done|]. split; [by apply holds_live_swapped|].
      right. exists old. split_and!; try done. simpl. by rewrite <- app_assoc.
    + destruct Hlive as [(s & Hs & _) _]. congruence.
  - intros [= Hafter <-].
    pose proof (after_maybe_reset_task k σ) as (_ & _ & Ht).
    pose proof (after_maybe_reset_live k σ Hlive) as Hl.
    pose proof (after_maybe_reset_machine k σ) as (_ & Hs & _).
    rewrite Hafter in Ht, Hl, Hs. simpl in *. by split_and!; [| |left].
Qed.

Lemma step_task_live i t σ l t' σ' l' :
  never_closes t = true → holds_live σ →
  step_task i t σ l = Some (t', σ', l') →
  never_closes t' = true ∧ holds_live σ' ∧
  (_session σ' = _session σ ∨
   ∃ old k, _session σ = Some old ∧ _session σ' = Some (next_sid σ) ∧
     t' = AwaitClose k old ∧ l' = true ∧
     trace σ' =
       trace σ ++
       create_events (_session_kwargs σ) (_skip_proxy_ssl σ) (next_sid σ) ++
       [EvClose old]).
Proof.
  intros Hnc Hlive.
  assert (∀ y k b,
    enter_maybe_reset y k (set_reset_requested b σ) l = (t', σ', l') →
    never_closes t' = true ∧ holds_live σ' ∧
    (_session σ' = _session σ ∨
     ∃ old k, _session σ = Some old ∧ _session σ' = Some (next_sid σ) ∧
       t' = AwaitClose k old ∧ l' = true ∧
       trace σ' =
         trace σ ++
         create_events (_session_kwargs σ) (_skip_proxy_ssl σ) (next_sid σ) ++
         [EvClose old])) as Henter.
  { intros y k b. unfold enter_maybe_reset.
    destruct (negb (_reset_requested (set_reset_requested b σ))).
    - intros [= Hafter <-].
      pose proof (after_maybe_reset_task k (set_reset_requested b σ)) as (_ & _ & Ht).
      pose proof (after_maybe_reset_live k (set_reset_requested b σ) Hlive) as Hl.
      pose proof (after_maybe_reset_machine k (set_reset_requested b σ)) as (_ & Hs & _).
      rewrite Hafter in Ht, Hl, Hs. simpl in *. by split_and!; [| |left].
    - destruct (l || y); [intros [= <- <- <-]; eauto|].
      intros Hsec. apply locked_section_live in Hsec as (? & ? & Hses); [|done].
      split_and!; try done. destruct Hses as [?|(old & ?)]; [by left|].
      right. by exists old, k. }
  assert (∀ y k, enter_maybe_reset y k σ l = (t', σ', l') →
    enter_maybe_reset y k (set_reset_requested (_reset_requested σ) σ) l =
      (t', σ', l')) as Hsame by (by destruct σ).
  destruct t as [[args|args| |]|k|k old|s method args|s|o], i as [y|oc|oc];
    unfold step_task; cbv beta iota; try done.
  - intros Hstep%(inj Some). eauto.
  - intros Hstep%(inj Some). eauto.
  - intros Hstep%(inj Some). eauto.
  - destruct l; [done|]. intros Hsec%(inj Some).
    apply locked_section_live in Hsec as (? & ? & Hses); [|done].
    split_and!; try done. destruct Hses as [?|(old & ?)]; [by left|].
    right. by exists old, k.
  - destruct oc as [[]|e]; [|destruct (isinstance_Exception e)].
    + intros Hstep%(inj Some).
      destruct (finish_reset_live k σ _ _ _ Hlive Hstep) as (? & ? & ?); eauto.
    + intros Hstep%(inj Some).
      destruct (finish_reset_live k σ _ _ _ Hlive Hstep) as (? & ? & ?); eauto.
    + intros [= <- <- <-]. eauto.
  - destruct oc as [r|e]; intros [= <- <- <-]; [|eauto].
    destruct (poisoned (_reset_on_status σ) r); eauto.
Qed.

Lemma step_open n i Σ Σ' :
  guard_open Σ → step n i Σ = Some Σ' →
  guard_open Σ' ∧
  (_session (shared Σ') = _session (shared Σ) ∨
   ∃ old k,
     _session (shared Σ) = Some old ∧
     _session (shared Σ') = Some (next_sid (shared Σ)) ∧
     tasks Σ' !! n = Some (AwaitClose k old) ∧ locked Σ' = true ∧
     trace (shared Σ') =
       trace (shared Σ) ++
       create_events (_session_kwargs (shared Σ)) (_skip_proxy_ssl (shared Σ))
         (next_sid (shared Σ)) ++
       [EvClose old]).
Proof.
  intros [Hts Hlive] (t & t' & Hn & Hstep & Hts')%step_inv.
  assert (never_closes t = true) as Hnc.
  { rewrite Forall_forall in Hts. apply Hts. by eapply list_elem_of_lookup_2. }
  apply step_task_live in Hstep as (Hnc' & Hlive' & Hses); [|done..].
  split.
  - split; [|done]. rewrite Hts'. by apply Forall_insert.
  - destruct Hses as [?|(old & k & ? & ? & -> & ? & ?)]; [by left|].
    right. exists old, k. split_and!; try done.
    rewrite Hts'. apply list_lookup_insert_eq. by eapply lookup_lt_Some.
Qed.

Lemma run_open sched Σ Σ' :
  guard_open Σ → run sched Σ = Some Σ' → guard_open Σ'.
Proof.
  revert Σ. induction sched as [|[n i] sched IH]; intros Σ Hopen; simpl.
  { by intros [= <-]. }
  destruct (step n i Σ) as [Σ1|] eqn:Hstep; simpl; [|done].
  apply IH. by eapply step_open.
Qed.

(** C2, as stated, fails on the order: [reset()] on a fresh guard runs to
    its first suspension point with session 1 constructed and installed
    while the close of session 0 has only been started and is still
    awaited.  In the trace the construction of session 1 is followed by
    the close of session 0, not the other way round. *)
Lemma new_session_installed_before_old_closed :
  ∃ Σ, step 0 (Go false) one_reset = Some Σ ∧
    _session (shared one_reset) = Some 0 ∧
    _session (shared Σ) = Some 1 ∧
    tasks Σ = [AwaitClose KReturn 0] ∧
    trace (shared Σ) = [EvConstruct 0 []; EvConstruct 1 []; EvClose 0] ∧
    occurs_before (is_close_of 0) (is_construct_of 1) (trace (shared Σ)) = false ∧
    occurs_before (is_construct_of 1) (is_close_of 0) (trace (shared Σ)) = true.
Proof. eexists. by vm_compute. Qed.

(** C2, amended. As long as nobody calls [close()], the guard holds one
    session handle at every suspension point of every schedule, and it is
    a session that exists and whose close was never called.  A step that
    changes the handle is the reconstruction: it constructs the new
    session and installs it first, then calls the close of the old one,
    which it is left awaiting; the old session was not closed before.
    While a task awaits that close the lock is held, whatever the other
    tasks do, and the step in which the close settles releases it. *)
Theorem one_live_session_while_open Σ0 sched Σ :
  guard_open Σ0 →
  exclusive Σ0 →
  run sched Σ0 = Some Σ →
  (∃ s, _session (shared Σ) = Some s ∧ s ∉ closed (trace (shared Σ))) ∧
  (∀ n i Σ',
     step n i Σ = Some Σ' →
     _session (shared Σ') ≠ _session (shared Σ) →
     ∃ old new_session k,
       _session (shared Σ) = Some old ∧
       _session (shared Σ') = Some new_session ∧
       new_session ≠ old ∧
       (old ∉ closed (trace (shared Σ))) ∧
       (trace (shared Σ') =
          trace (shared Σ) ++
          create_events (_session_kwargs (shared Σ)) (_skip_proxy_ssl (shared Σ))
            new_session ++
          [EvClose old]) ∧
       tasks Σ' !! n = Some (AwaitClose k old) ∧ locked Σ' = true) ∧
  (∀ n k old,
     tasks Σ !! n = Some (AwaitClose k old) →
     locked Σ = true ∧
     (∀ m i Σ',
        m ≠ n → step m i Σ = Some Σ' →
        tasks Σ' !! n = Some (AwaitClose k old) ∧ locked Σ' = true) ∧
     (∀ o Σ', step n (CloseResult o) Σ = Some Σ' → locked Σ' = false)).
Proof.
  intros Hopen Hex Hrun. pose proof (run_open _ _ _ Hopen Hrun) as Hopen'.
  pose proof (run_exclusive _ _ _ Hex Hrun) as Hex'.
  split_and!.
  - destruct Hopen' as [_ [(s & Hs & _ & Hnc) _]]. eauto.
  - intros n i Σ' Hstep Hchange.
    destruct (step_open _ _ _ _ Hopen' Hstep)
      as [_ [?|(old & k & Hold & Hnew & Ht & Hl & Htr)]]; [done|].
    destruct Hopen' as [_ [(s & Hs & Hlt & Hnc) _]]. simplify_eq.
    exists s, (next_sid (shared Σ)), k. split_and!; try done. lia.
  - intros n k old Hn. split_and!.
    + by apply (reconstructing_locked Σ n (AwaitClose k old)).
    + intros m i Σ' Hne Hstep.
      assert (tasks Σ' !! n = Some (AwaitClose k old)) as Hn'
        by (by rewrite (step_other _ _ _ _ n Hstep)).
      split; [done|].
      apply (reconstructing_locked Σ' n (AwaitClose k old)); [|done..].
      by eapply step_exclusive.
    + intros o Σ' (t & t' & Hn' & Hstep & _)%step_inv.
      rewrite Hn in Hn'. injection Hn' as <-. simpl in Hstep.
      destruct o as [[]|e]; [|destruct (isinstance_Exception e)];
        unfold finish_reset in Hstep; congruence.
Qed.

Lemma armed_reached :
  run [(3, Go false); (4, Go false); (3, CallResult blocked)] five_requests =
    Some armed.
Proof. by vm_compute. Qed.

Lemma swapping_reached : step 0 (Go false) armed = Some swapping.
Proof. by vm_compute. Qed.

(** On [armed] the start of request 0 is a step that changes the handle,
    from session 0 to session 1; on [swapping], where that step leads, the
    lock is held while request 0 awaits the close of session 0, stays held
    when request 1 starts, and is released when the close settles. *)
Lemma one_live_session_while_open_witness :
  (∃ s, _session (shared armed) = Some s ∧ s ∉ closed (trace (shared armed))) ∧
  (∃ old new_session k,
     _session (shared armed) = Some old ∧
     _session (shared swapping) = Some new_session ∧
     new_session ≠ old ∧
     (old ∉ closed (trace (shared armed))) ∧
     (trace (shared swapping) =
        trace (shared armed) ++
        create_events (_session_kwargs (shared armed))
          (_skip_proxy_ssl (shared armed)) new_session ++
        [EvClose old]) ∧
     tasks swapping !! 0 = Some (AwaitClose k old) ∧ locked swapping = true) ∧
  (locked swapping = true ∧
   (∃ Σ', step 1 (Go false) swapping = Some Σ' ∧
      tasks Σ' !! 0 = Some (AwaitClose (KDelegate "get" "/a") 0) ∧
      locked Σ' = true) ∧
   (∃ Σ', step 0 (CloseResult (Return ())) swapping = Some Σ' ∧
      locked Σ' = false)).
Proof.
  assert (guard_open five_requests) as Hopen.
  { split.
    - repeat (apply Forall_cons_2; [reflexivity|]). apply Forall_nil_2.
    - split.
      + exists 0. split_and!; [reflexivity|vm_compute; lia|apply not_elem_of_nil].
      + apply Forall_nil_2. }
  assert (exclusive five_requests) as Hex by reflexivity.
  destruct (one_live_session_while_open five_requests
              [(3, Go false); (4, Go false); (3, CallResult blocked)] armed
              Hopen Hex) as (H1 & H2 & _); [vm_compute; reflexivity|].
  destruct (one_live_session_while_open five_requests
              [(3, Go false); (4, Go false); (3, CallResult blocked); (0, Go false)]
              swapping Hopen Hex) as (_ & _ & H3); [vm_compute; reflexivity|].
  destruct (H3 0 (KDelegate "get" "/a") 0 eq_refl) as (Hl & Hother & Hsettle).
  split; [exact H1|]. split.
  - apply (H2 0 (Go false) swapping); [vm_compute; reflexivity|].
    vm_compute. intros [= ?].
  - split; [exact Hl|]. split.
    + eexists. split; [vm_compute; reflexivity|].
      apply (Hother 1 (Go false)); [lia|vm_compute; reflexivity].
    + eexists. split; [vm_compute; reflexivity|].
      apply (Hsettle (Return ())). vm_compute. reflexivity.
Defined.

(** *** Every schedule ends, and only when every task is done *)

Lemma step_task_rank i t σ l t' σ' l' :
  step_task i t σ l = Some (t', σ', l') → rank t' < rank t.
Proof. intros H. step_cases H; simpl; lia. Qed.

Lemma work_insert (ts : list task) n t t' :
  ts !! n = Some t →
  sum_list (rank <$> <[n := t']> ts) + rank t = sum_list (rank <$> ts) + rank t'.
Proof.
  revert n. induction ts as [|t0 ts IH]; intros [|n] Hn; try done.
  - injection Hn as ->. cbn [insert list_insert]. rewrite !fmap_cons. simpl. lia.
  - specialize (IH n Hn). cbn [insert list_insert]. rewrite !fmap_cons.
    simpl. rewrite <- !Nat.add_assoc. f_equal. exact IH.
Qed.

Lemma step_work n i Σ Σ' : step n i Σ = Some Σ' → work Σ' < work Σ.
Proof.
  intros (t & t' & Hn & Ht & Hts)%step_inv. apply step_task_rank in Ht.
  unfold work. rewrite Hts. pose proof (work_insert (tasks Σ) n t t' Hn). lia.
Qed.

(** X11. Every coroutine finishes: a task goes through at most four
    suspension points, so no schedule has more steps than four per task
    that was not started, fewer for those under way. *)
Lemma run_work sched Σ Σ' :
  run sched Σ = Some Σ' → length sched + work Σ' ≤ work Σ.
Proof.
  revert Σ. induction sched as [|[n i] sched IH]; intros Σ; simpl.
  { by intros [= <-]. }
  destruct (step n i Σ) as [Σ1|] eqn:Hstep; simpl; [|done].
  intros Hrun. specialize (IH _ Hrun). apply step_work in Hstep. lia.
Qed.

(** X10. The lock never blocks the event loop: while it is held only by a
    task inside the reconstruction sequence, a task that is not done means
    that some task can be resumed, since a waiter for the lock is only kept
    waiting by a task awaiting a close. *)
Lemma no_deadlock Σ n t :
  exclusive Σ →
  tasks Σ !! n = Some t → is_done t = false →
  ∃ m i Σ', step m i Σ = Some Σ'.
Proof.
  intros Hex Hn Hdone.
  assert (∀ m tm i, tasks Σ !! m = Some tm →
    is_Some (step_task i tm (shared Σ) (locked Σ)) →
    ∃ m i Σ', step m i Σ = Some Σ') as Hgo.
  { intros m tm i Hm [[[t' σ'] l'] Hstep]. exists m, i. unfold step.
    rewrite Hm. simpl. rewrite Hstep. simpl. eauto. }
  destruct t as [[args|args| |]|k|k old|s method args|s|o]; try done.
  - by eapply (Hgo n _ (Go false)).
  - by eapply (Hgo n _ (Go false)).
  - by eapply (Hgo n _ (Go false)).
  - eapply (Hgo n _ (Go false)); [done|]. simpl. by destruct (_session (shared Σ)).
  - destruct (locked Σ) eqn:Hl.
    + (* the lock is held: by a task that awaits a close *)
      assert (∃ m k' old, tasks Σ !! m = Some (AwaitClose k' old))
        as (m & k' & old & Hm).
      { unfold exclusive, reconstructors in Hex. rewrite Hl in Hex. simpl in Hex.
        destruct (filter (λ t, reconstructing t = true) (tasks Σ))
          as [|t0 ts] eqn:Hf; [done|].
        assert (t0 ∈ filter (λ t, reconstructing t = true) (tasks Σ)) as Hin
          by (rewrite Hf; apply list_elem_of_here).
        apply list_elem_of_filter in Hin as [Hrec Hin].
        apply list_elem_of_lookup in Hin as [m Hm].
        destruct t0; try done. eauto. }
      by eapply (Hgo m _ (CloseResult (Return ()))).
    + by eapply (Hgo n _ (Go false)).
  - by eapply (Hgo n _ (CloseResult (Return ()))).
  - by eapply (Hgo n _ (CallResult ok)).
  - by eapply (Hgo n _ (CloseResult (Return ()))).
Qed.

End Interleaved.

(** ** What holds over the whole life of a guard *)

Module Lifetime.
Import ResettableSession Surface Tasks Examples.

#[local] Set Warnings "-clear-no-such-hyp".

(** *** From one block to calls and schedules *)

Section Preserved.
Context (P : machine → Prop).
Context (block : ∀ i t σ l t' σ' l',
  P σ → step_task i t σ l = Some (t', σ', l') → P σ').

Lemma run_alone_preserved tr fuel t σ l :
  P σ → P (run_alone tr fuel t σ l).1.2.
Proof.
  revert t σ l. induction fuel as [|fuel IH]; intros t σ l HP; simpl; [done|].
  destruct (step_task (answer tr t σ) t σ l) as [[[t' σ'] l']|] eqn:Hstep; [|done].
  apply IH. by eapply block.
Qed.

Lemma perform_preserved tr c σ : P σ → P (perform tr c σ).2.
Proof.
  intros HP. pose proof (run_alone_preserved tr 4 (Ready c) σ false HP) as H.
  by rewrite Interleaved.alone_agrees in H.
Qed.

Lemma perform_all_preserved tr cs σ : P σ → P (perform_all tr cs σ).
Proof.
  revert σ. induction cs as [|c cs IH]; intros σ HP; simpl; [done|].
  by apply IH, perform_preserved.
Qed.

Lemma step_preserved n i Σ Σ' : P (shared Σ) → step n i Σ = Some Σ' → P (shared Σ').
Proof. intros HP (t & t' & _ & Hstep & _)%Interleaved.step_inv. by eapply block. Qed.

Lemma run_preserved sched Σ Σ' : P (shared Σ) → run sched Σ = Some Σ' → P (shared Σ').
Proof.
  revert Σ. induction sched as [|[n i] sched IH]; intros Σ HP; simpl.
  { by intros [= <-]. }
  destruct (step n i Σ) as [Σ1|] eqn:Hstep; simpl; [|done].
  apply IH. by eapply step_preserved.
Qed.

End Preserved.

(** *** Settings and configuration *)

Lemma config_events_app l1 l2 :
  config_events (l1 ++ l2) = config_events l1 ++ config_events l2.
Proof. apply filter_app. Qed.

Lemma config_events_create kw skip s :
  config_events (create_events kw skip s) = create_events kw skip s.
Proof. by destruct skip. Qed.

Lemma step_task_settings i t σ l t' σ' l' :
  step_task i t σ l = Some (t', σ', l') → settings σ' = settings σ.
Proof. intros H. Interleaved.step_cases H; done. Qed.

Lemma step_task_configured i t σ l t' σ' l' :
  configured_alike σ →
  step_task i t σ l = Some (t', σ', l') → configured_alike σ'.
Proof.
  unfold configured_alike. intros Hc H. Interleaved.step_cases H; simpl;
    rewrite ?config_events_app, ?Alone.constructed_app, ?fmap_app, ?concat_app,
      ?config_events_create, ?Alone.constructed_create, ?Hc;
    simpl; rewrite ?app_nil_r; try done.
Qed.

(** X1. Nothing but [__init__] assigns the construction parameters, the
    poison set and the proxy TLS policy: whatever tasks run, in whatever
    order and with whatever results, these three are at the end what they
    were at the start. *)
Theorem settings_never_change sched Σ0 Σ :
  run sched Σ0 = Some Σ →
  settings (shared Σ) = settings (shared Σ0) ∧
  (configured_alike (shared Σ0) → configured_alike (shared Σ)).
Proof.
  intros Hrun. split.
  - apply (run_preserved (λ σ, settings σ = settings (shared Σ0))) in Hrun; try done.
    intros i t σ l t' σ' l' <- Hstep. by eapply step_task_settings.
  - intros Hc. by eapply (run_preserved configured_alike); [apply step_task_configured|..].
Qed.

Lemma settings_never_change_witness :
  settings (shared settled) = settings (shared contended) ∧
  (configured_alike (shared contended) → configured_alike (shared settled)).
Proof.
  apply (settings_never_change settling_schedule contended settled).
  vm_compute. reflexivity.
Defined.

(** X2. When the proxy TLS policy is off, that is unless both the skip
    flag and a proxy URL are configured, every session a guard ever builds,
    the first one in [__init__] and each replacement alike, is constructed
    from the keyword arguments given at construction and has no option set
    on it: the configuration events of the trace are one construction with
    those arguments per session, and nothing else. *)
Theorem sessions_configured_alike tr cfg arg kw first calls :
  _should_skip_proxy_ssl cfg = false →
  let σ := perform_all tr calls (__init__ cfg arg kw first []) in
  settings σ = (kw, resolve_reset_on_status arg cfg, false) ∧
  config_events (trace σ) = (λ s, EvConstruct s kw) <$> constructed (trace σ).
Proof.
  intros Hoff. cbv zeta.
  pose proof (perform_all_preserved
    (λ σ, settings σ = settings (__init__ cfg arg kw first []) ∧ configured_alike σ))
    as Hall.
  destruct (Hall (λ i t σ l t' σ' l' HP Hstep,
      conj (eq_trans (step_task_settings _ _ _ _ _ _ _ Hstep) (proj1 HP))
           (step_task_configured _ _ _ _ _ _ _ (proj2 HP) Hstep))
    tr calls (__init__ cfg arg kw first [])) as [Hset Hconf].
  { split; [done|]. unfold configured_alike. rewrite Alone.init_fields.
    cbn [trace _session_kwargs _skip_proxy_ssl].
    rewrite app_nil_l, config_events_create, Alone.constructed_create. simpl.
    by rewrite app_nil_r. }
  assert (settings (__init__ cfg arg kw first []) =
          (kw, resolve_reset_on_status arg cfg, false)) as Hinit.
  { unfold settings. rewrite Alone.init_fields.
    cbn [_session_kwargs _reset_on_status _skip_proxy_ssl]. by rewrite Hoff. }
  rewrite Hinit in Hset. split; [done|].
  unfold configured_alike in Hconf. injection Hset as Hkw _ Hskip.
  rewrite Hkw, Hskip in Hconf. rewrite Hconf.
  generalize (constructed (trace (perform_all tr calls (__init__ cfg arg kw first [])))).
  intros l. induction l as [|s l IH]; [done|].
  rewrite !fmap_cons. simpl. f_equal. exact IH.
Qed.

Lemma sessions_configured_alike_witness :
  let σ := perform_all always_403 [CallGet "/a"; CallGet "/b"; CallReset]
             (__init__ (Config None true None) None [("impersonate", "chrome")] 0 []) in
  settings σ =
    ([("impersonate", "chrome")],
     resolve_reset_on_status None (Config None true None), false) ∧
  config_events (trace σ) =
    (λ s, EvConstruct s [("impersonate", "chrome")]) <$> constructed (trace σ).
Proof.
  exact (sessions_configured_alike always_403 (Config None true None) None
           [("impersonate", "chrome")] 0
           [CallGet "/a"; CallGet "/b"; CallReset] eq_refl).
Defined.

(** *** Construction and release *)

Section Accounting.
Context (tr : transport).

Lemma accounted_maybe_reset σ o σm :
  accounted σ → _maybe_reset tr σ = (o, σm) → accounted σm.
Proof.
  unfold accounted. intros Hacc Hm.
  apply Alone.maybe_reset_summary in Hm as (_ & _ & evs & Htr & _ & Hrest).
  rewrite Htr, Alone.constructed_app, Alone.closed_app.
  destruct (_reset_requested σ).
  - destruct Hrest as (-> & _ & -> & ->). by rewrite Hacc.
  - destruct Hrest as (-> & _ & ->). simpl. by rewrite ?app_nil_r.
Qed.

Lemma accounted_delegate method args σm o σ' :
  accounted σm → delegate tr method args σm = (o, σ') → accounted σ'.
Proof.
  unfold accounted. intros Hacc (-> & _ & _ & _ & ->)%Alone.delegate_summary.
  rewrite Alone.constructed_app, Alone.closed_app.
  destruct (_session σm); simpl in *; by rewrite ?app_nil_r in *.
Qed.

Lemma accounted_perform c σ : accounted σ → accounted (perform tr c σ).2.
Proof.
  intros Hacc. rewrite Alone.perform_state.
  assert (∀ method args, accounted (_request tr method args σ).2) as Hrequest.
  { intros method args. rewrite Alone.request_unfold.
    destruct (_maybe_reset tr σ) as [[[]|e] σm] eqn:Hm.
    - destruct (delegate tr method args σm) as [o' σ'] eqn:Hd.
      eapply accounted_delegate; [|done]. by eapply accounted_maybe_reset.
    - by eapply accounted_maybe_reset. }
  destruct c as [args|args| |]; [apply Hrequest..| |].
  - rewrite Alone.reset_unfold.
    destruct (_maybe_reset tr (set_reset_requested true σ)) as [o σm] eqn:Hm.
    by eapply accounted_maybe_reset in Hm.
  - rewrite Alone.close_unfold. unfold accounted in *.
    destruct (_session σ) as [s|] eqn:Hs; simpl in *; [|by rewrite Hs].
    by rewrite Alone.constructed_app, Alone.closed_app, Hacc, !app_nil_r.
Qed.

Lemma accounted_perform_all cs σ : accounted σ → accounted (perform_all tr cs σ).
Proof.
  revert σ. induction cs as [|c cs IH]; intros σ Hacc; simpl; [done|].
  by apply IH, accounted_perform.
Qed.

End Accounting.

Lemma step_task_numbered first i t σ l t' σ' l' :
  numbered first σ →
  step_task i t σ l = Some (t', σ', l') → numbered first σ'.
Proof.
  unfold numbered. intros [Hle Hc] H.
  assert (seq first (S (next_sid σ) - first) =
          seq first (next_sid σ - first) ++ [next_sid σ]) as Hseq.
  { replace (S (next_sid σ) - first) with (S (next_sid σ - first)) by lia.
    rewrite seq_S. do 2 f_equal. lia. }
  Interleaved.step_cases H; simpl;
    rewrite ?Alone.constructed_app, ?Alone.constructed_create, ?Hseq, ?Hc;
    simpl; rewrite ?app_nil_r; split; try done; lia.
Qed.

(** X3. Calls made one after another, from construction on: at any point
    the sessions constructed so far are pairwise distinct objects, and they
    are, in order, the sessions whose close has been called followed by
    the one the guard holds, if it holds one.  A [close()] at that point
    therefore leaves every session ever constructed with its close called,
    exactly once each. *)
Theorem every_session_closed_once tr cfg arg kw first calls :
  let σ := perform_all tr calls (__init__ cfg arg kw first []) in
  constructed (trace σ) = closed (trace σ) ++ option_list (_session σ) ∧
  NoDup (constructed (trace σ)) ∧
  closed (trace (close tr σ).2) = constructed (trace σ) ∧
  _session (close tr σ).2 = None.
Proof.
  cbv zeta. set (σ0 := __init__ cfg arg kw first []).
  assert (accounted (perform_all tr calls σ0)) as Hacc.
  { apply accounted_perform_all. unfold accounted, σ0.
    rewrite Alone.init_fields. cbn [trace _session].
    by rewrite app_nil_l, Alone.constructed_create, Alone.closed_create. }
  assert (numbered first (perform_all tr calls σ0)) as [_ Hnum].
  { apply (perform_all_preserved (numbered first) (step_task_numbered first)).
    unfold numbered, σ0. rewrite Alone.init_fields. cbn [trace next_sid].
    split; [lia|].
    rewrite app_nil_l, Alone.constructed_create.
    by replace (S first - first) with 1 by lia. }
  unfold accounted in Hacc. split_and!.
  - done.
  - rewrite Hnum. apply NoDup_seq.
  - rewrite Alone.close_unfold, Hacc.
    destruct (_session (perform_all tr calls σ0)) as [s|]; simpl.
    + by rewrite Alone.closed_app.
    + by rewrite app_nil_r.
  - rewrite Alone.close_unfold.
    by destruct (_session (perform_all tr calls σ0)) eqn:Hs.
Qed.

(** *** A closed guard *)

Lemma request_without_session tr method args σ :
  _session σ = None → _reset_requested σ = false →
  _request tr method args σ = (Raise AttributeError, σ).
Proof.
  intros Hs Hreq. rewrite Alone.request_unfold, Alone.maybe_reset_idle by done.
  unfold delegate. by rewrite Hs.
Qed.

(** X4. With calls made one after another, none in flight when the next
    is made: once [close()] has run on a guard that held a session, [get]
    and [post] raise [AttributeError] and do nothing else: no session is
    constructed, called or closed, and the guard stays as [close()] left
    it, however many requests are attempted. *)
Theorem requests_on_closed_guard tr σ s calls :
  _session σ = Some s →
  Forall (λ c, is_request c = true) calls →
  let σ1 := (close tr σ).2 in
  perform_all tr calls σ1 = σ1 ∧
  Forall (λ c, (perform tr c σ1).1 = Raise AttributeError) calls.
Proof.
  intros Hs Hcalls. cbv zeta.
  assert (_session (close tr σ).2 = None ∧ _reset_requested (close tr σ).2 = false)
    as [Hs1 Hreq1] by (by rewrite Alone.close_unfold, Hs).
  assert (∀ c, is_request c = true →
    perform tr c (close tr σ).2 = (Raise AttributeError, (close tr σ).2)) as Hone.
  { intros c Hc. rewrite Alone.perform_unfold.
    destruct c as [args|args| |]; try done;
      by rewrite request_without_session. }
  split.
  - induction Hcalls as [|c calls Hc _ IH]; simpl; [done|].
    by rewrite Hone.
  - eapply Forall_impl; [done|]. intros c Hc. simpl. by rewrite Hone.
Qed.

Lemma requests_on_closed_guard_witness :
  let σ1 := (close failing_close fresh_guard).2 in
  perform_all failing_close [CallGet "/a"; CallPost "/b"] σ1 = σ1 ∧
  Forall (λ c, (perform failing_close c σ1).1 = Raise AttributeError)
    [CallGet "/a"; CallPost "/b"].
Proof.
  apply (requests_on_closed_guard failing_close fresh_guard 0
           [CallGet "/a"; CallPost "/b"]).
  - reflexivity.
  - repeat constructor.
Defined.

(** *** The pending flag between calls *)

(** X5. On an open guard, with calls made one after another, a reset is
    pending after a call exactly when the call was a [get] or [post] that
    returned a response whose status code is in the poison set: [reset()],
    [close()], a request that raises and a request answered with any other
    code all leave the flag down, whatever it was before. *)
Theorem flag_up_only_after_poison tr σ s c :
  _session σ = Some s →
  _reset_requested (perform tr c σ).2 = true ↔
  is_request c = true ∧
  ∃ r, (perform tr c σ).1 = Return (Some r) ∧
       status_code r ∈ _reset_on_status σ.
Proof.
  intros Hs. rewrite Alone.perform_unfold.
  assert (∀ method args,
    let (o, σ') := _request tr method args σ in
    _reset_requested σ' = true ↔
    ∃ r, o = Return r ∧ status_code r ∈ _reset_on_status σ) as Hrequest.
  { intros method args. rewrite Alone.request_unfold.
    destruct (_maybe_reset tr σ) as [[[]|e] σm] eqn:Hm.
    - pose proof (Alone.maybe_reset_clears tr _ _ _ Hm) as Hclr.
      pose proof (Alone.maybe_reset_codes tr _ _ _ Hm) as Hcodes.
      unfold delegate. destruct (_session σm) as [s'|].
      + destruct (t_call tr (trace σm) s' method args) as [r|e].
        * rewrite Hcodes. unfold poisoned.
          destruct (decide (status_code r ∈ _reset_on_status σ)) as [Hin|Hout].
          -- assert (_reset_on_status σ ≠ ∅) as Hne.
             { intros Hempty. rewrite Hempty in Hin.
               by apply not_elem_of_empty in Hin. }
             rewrite !bool_decide_eq_true_2 by done. simpl. naive_solver.
          -- rewrite (bool_decide_eq_false_2 (status_code r ∈ _)) by done.
             rewrite andb_false_r. simpl. rewrite Hclr. naive_solver.
        * simpl. rewrite Hclr. naive_solver.
      + rewrite Hclr. naive_solver.
    - rewrite (Alone.maybe_reset_clears tr _ _ _ Hm). naive_solver. }
  destruct c as [args|args| |].
  - specialize (Hrequest "get" args).
    destruct (_request tr "get" args σ) as [[r|e] σ']; simpl; naive_solver.
  - specialize (Hrequest "post" args).
    destruct (_request tr "post" args σ) as [[r|e] σ']; simpl; naive_solver.
  - rewrite Alone.reset_unfold.
    destruct (_maybe_reset tr (set_reset_requested true σ)) as [o σm] eqn:Hm.
    simpl. rewrite (Alone.maybe_reset_clears tr _ _ _ Hm). naive_solver.
  - rewrite Alone.close_unfold, Hs. simpl. naive_solver.
Qed.

Lemma flag_up_only_after_poison_witness :
  _reset_requested (perform always_403 (CallGet "/") fresh_guard).2 = true ↔
  is_request (CallGet "/") = true ∧
  ∃ r, (perform always_403 (CallGet "/") fresh_guard).1 = Return (Some r) ∧
       status_code r ∈ _reset_on_status fresh_guard.
Proof.
  exact (flag_up_only_after_poison always_403 fresh_guard 0 (CallGet "/") eq_refl).
Defined.

(** *** Scoped use *)

(** X6. [async with] releases on every exit path.  Whatever the body does
    and however it ends, the guard holds no session afterwards.  If the
    body left a session installed, its close is called, as the last thing
    that happens, the pending flag is cleared, and the block ends as the
    body ended, unless that close raises, in which case its exception is
    what comes out.  If the body left none, nothing is added to what the
    body did. *)
Theorem async_with_releases {A} tr (body : M A) σ :
  let (ob, σb) := body σ in
  let (o, σ') := async_with tr body σ in
  _session σ' = None ∧
  match _session σb with
  | Some s =>
      trace σ' = trace σb ++ [EvClose s] ∧
      _reset_requested σ' = false ∧
      o = match t_close tr (trace σb) s with
          | Return _ => ob
          | Raise e => Raise e
          end
  | None => o = ob ∧ σ' = σb
  end.
Proof.
  unfold async_with, __aenter__, __aexit__, try_finally.
  unfold mbind at 1, M_bind at 1, mret, M_ret.
  destruct (body σ) as [ob σb]. rewrite Alone.close_unfold.
  destruct (_session σb) as [s|] eqn:Hs; simpl.
  - by destruct (t_close tr (trace σb) s) as [[]|e].
  - by rewrite Hs.
Qed.

(** *** Pass-through *)

(** X7. Attribute pass-through looks the name up on whatever the handle
    is bound to at that moment and touches nothing.  It does not go
    through [_maybe_reset]: with a reset pending it still reaches the
    session that produced the poison response, while a request made at the
    same point reconstructs and goes to a new session, which is what
    pass-through reaches from then on.  After [close()] the name is looked
    up on [None]. *)
Theorem getattr_bypasses_reset tr attrs name σ s :
  wf σ →
  _reset_requested σ = true →
  _session σ = Some s →
  __getattr__ attrs name σ = (attrs (Some s) name, σ) ∧
  (∀ method args o σ2,
     _request tr method args σ = (o, σ2) →
     next_sid σ ≠ s ∧
     __getattr__ attrs name σ2 = (attrs (Some (next_sid σ)) name, σ2)) ∧
  __getattr__ attrs name (close tr σ).2 = (attrs None name, (close tr σ).2).
Proof.
  intros Hwf Hreq Hs. specialize (Hwf s Hs). split_and!.
  - unfold __getattr__, session_getattr, mbind, M_bind, read. by rewrite Hs.
  - intros method args o σ2 Hrun.
    apply (Alone.request_pending tr method args σ s) in Hrun as [Hs2 _]; try done.
    split; [lia|].
    unfold __getattr__, session_getattr, mbind, M_bind, read. by rewrite Hs2.
  - rewrite Alone.close_unfold, Hs.
    by unfold __getattr__, session_getattr, mbind, M_bind, read.
Qed.

Lemma getattr_bypasses_reset_witness :
  let σ := (get always_403 "/" fresh_guard).2 in
  let attrs := λ (s : option sid) (name : string),
    match s with
    | Some 0 => Return "of session 0"
    | Some _ => Return "of a later session"
    | None => Raise AttributeError
    end in
  __getattr__ attrs "cookies" σ = (Return "of session 0", σ) ∧
  (∀ method args o σ2,
     _request always_403 method args σ = (o, σ2) →
     next_sid σ ≠ 0 ∧
     __getattr__ attrs "cookies" σ2 = (Return "of a later session", σ2)) ∧
  __getattr__ attrs "cookies" (close always_403 σ).2 =
    (Raise AttributeError, (close always_403 σ).2).
Proof.
  apply (getattr_bypasses_reset always_403
           (λ s name, match s with
                      | Some 0 => Return "of session 0"
                      | Some _ => Return "of a later session"
                      | None => Raise AttributeError
                      end) "cookies"
           (get always_403 "/" fresh_guard).2 0).
  - intros s [= <-]. vm_compute. lia.
  - reflexivity.
  - reflexivity.
Defined.

(** *** Requests in flight together *)

Lemma step_unarmed_request n y Σ Σ' s c :
  pending Σ = false → _session (shared Σ) = Some s →
  tasks Σ !! n = Some (Ready c) → is_request c = true →
  step n (Go y) Σ = Some Σ' →
  ∃ method args,
    shared Σ' = emit [EvCall s method args] (shared Σ) ∧
    locked Σ' = locked Σ ∧
    tasks Σ' = <[n := AwaitResponse s method args]> (tasks Σ).
Proof.
  intros Hidle Hs Hn Hc (t & t' & Hn' & Hstep & Hts')%Interleaved.step_inv.
  rewrite Hn in Hn'. injection Hn' as <-.
  unfold pending in Hidle.
  assert (∀ method args,
    enter_maybe_reset y (KDelegate method args) (shared Σ) (locked Σ) =
      (AwaitResponse s method args, emit [EvCall s method args] (shared Σ),
       locked Σ)) as Henter.
  { intros method args. unfold enter_maybe_reset. rewrite Hidle. simpl.
    by rewrite Hs. }
  destruct c as [args|args| |]; try done; simpl in Hstep;
    rewrite Henter in Hstep; injection Hstep as <- <- <-; eauto.
Qed.

(** X8. Requests started while no reset is pending all go to the session
    installed at that time, whatever the order in which the event loop
    starts them, whatever the other tasks are in the middle of, and
    whether or not the lock is held: each start delegates one call to that
    session at once, nothing is constructed or closed, neither the handle,
    the flag nor the lock changes, and no other task is touched. *)
Theorem unarmed_requests_share_session sched Σ0 Σ s :
  pending Σ0 = false →
  _session (shared Σ0) = Some s →
  Forall (λ ni, is_go ni.2 = true ∧
                ∃ t, tasks Σ0 !! ni.1 = Some t ∧ requesting s t) sched →
  run sched Σ0 = Some Σ →
  _session (shared Σ) = Some s ∧ pending Σ = false ∧ locked Σ = locked Σ0 ∧
  Forall (λ ni, ∃ method args,
            tasks Σ !! ni.1 = Some (AwaitResponse s method args)) sched ∧
  (∀ n, n ∉ sched.*1 → tasks Σ !! n = tasks Σ0 !! n) ∧
  ∃ evs, trace (shared Σ) = trace (shared Σ0) ++ evs ∧
    called evs = replicate (length sched) s ∧
    constructed evs = [] ∧ closed evs = [].
Proof.
  intros Hidle Hs Hsched. revert Σ0 Hidle Hs Hsched.
  induction sched as [|[n i] sched IH]; intros Σ0 Hidle Hs Hsched; simpl.
  { intros [= <-]. split_and!; try done. exists []. by rewrite app_nil_r. }
  apply Forall_cons in Hsched as [[Hgo (t & Hn & Ht)] Hrest]. simpl in *.
  destruct i as [y| |]; try done.
  destruct (step n (Go y) Σ0) as [Σ1|] eqn:Hstep; simpl; [|done].
  destruct Ht as [(c & -> & Hc)|(method & args & ->)].
  2:{ apply Interleaved.step_inv in Hstep as (t & t' & Hn' & Hstep & _).
      rewrite Hn in Hn'. by injection Hn' as <-. }
  destruct (step_unarmed_request _ _ _ _ s c Hidle Hs Hn Hc Hstep)
    as (method & args & Hsh & Hl & Hts).
  intros Hrun.
  destruct (IH Σ1) as (Hs' & Hidle' & Hl' & Hall & Hother & evs & Htr & Hcalled & Hc' & Hcl);
    try done.
  { unfold pending. by rewrite Hsh. }
  { by rewrite Hsh. }
  { eapply Forall_impl; [done|]. intros [m j] [Hj (tm & Hm & Htm)]. simpl in *.
    split; [done|]. rewrite Hts.
    destruct (decide (m = n)) as [->|Hne].
    - rewrite list_lookup_insert_eq by (by eapply lookup_lt_Some).
      eexists. split; [done|]. right. eauto.
    - rewrite list_lookup_insert_ne by done. eauto. }
  assert (tasks Σ1 !! n = Some (AwaitResponse s method args)) as Hn1.
  { rewrite Hts. apply list_lookup_insert_eq. by eapply lookup_lt_Some. }
  split_and!; try done.
  - congruence.
  - apply Forall_cons. split; [|done]. simpl.
    destruct (decide (n ∈ sched.*1)) as [Hin|Hout].
    + apply list_elem_of_fmap in Hin as ([m j] & -> & Hin).
      rewrite Forall_forall in Hall. apply (Hall _ Hin).
    + rewrite (Hother n Hout). eauto.
  - intros m Hm. apply not_elem_of_cons in Hm as [Hne Hm].
    rewrite (Hother m Hm), Hts. by apply list_lookup_insert_ne.
  - exists (EvCall s method args :: evs). rewrite Htr, Hsh. simpl.
    rewrite <- app_assoc, Hcalled. by split_and!.
Qed.

(** On [swapping], where request 0 holds the lock and awaits a close,
    requests 1 and 2 start and both go to session 1 at once. *)
Lemma unarmed_requests_share_session_witness :
  ∃ Σ, run [(1, Go false); (2, Go true)] swapping = Some Σ ∧
    locked swapping = true ∧
    _session (shared Σ) = Some 1 ∧ pending Σ = false ∧
    locked Σ = locked swapping ∧
    Forall (λ ni, ∃ method args,
              tasks Σ !! ni.1 = Some (AwaitResponse 1 method args))
      [(1, Go false); (2, Go true)] ∧
    (∀ n, n ∉ [(1, Go false); (2, Go true)].*1 → tasks Σ !! n = tasks swapping !! n) ∧
    ∃ evs, trace (shared Σ) = trace (shared swapping) ++ evs ∧
      called evs = replicate 2 1 ∧ constructed evs = [] ∧ closed evs = [].
Proof.
  eexists. split; [vm_compute; reflexivity|]. split; [reflexivity|].
  apply (unarmed_requests_share_session [(1, Go false); (2, Go true)] swapping _ 1).
  - reflexivity.
  - reflexivity.
  - repeat (apply Forall_cons_2;
      [split; [reflexivity|eexists; split; [reflexivity|left; eexists; split; reflexivity]]|]).
    apply Forall_nil_2.
  - vm_compute. reflexivity.
Defined.

(** *** Sessions let go without a close *)

Lemma step_task_dropped s i t σ l t' σ' l' :
  dropped s σ →
  step_task i t σ l = Some (t', σ', l') → dropped s σ'.
Proof.
  unfold dropped. intros (Hlt & Hheld & Hnc) H.
  Interleaved.step_cases H; simpl;
    rewrite ?Alone.closed_app, ?Alone.closed_create; simpl;
    rewrite ?app_nil_r; split_and!; try done; try lia;
    try (intros [= ?]; lia);
    rewrite ?elem_of_app, ?list_elem_of_singleton; naive_solver.
Qed.

(** X9. [close()] clears the handle when its awaited close has settled,
    whichever session is installed by then.  If a reconstruction has
    replaced the session in the meantime, the replacement, whose close was
    never called, is simply forgotten: the guard holds nothing, and in no
    continuation of any schedule is that session's close ever called. *)
Theorem close_forgets_replacement Σ n s s' o Σ1 sched Σ2 :
  tasks Σ !! n = Some (AwaitFinalClose s) →
  _session (shared Σ) = Some s' →
  s' < next_sid (shared Σ) →
  s' ∉ closed (trace (shared Σ)) →
  step n (CloseResult o) Σ = Some Σ1 →
  run sched Σ1 = Some Σ2 →
  _session (shared Σ1) = None ∧
  trace (shared Σ1) = trace (shared Σ) ∧
  _session (shared Σ2) ≠ Some s' ∧
  s' ∉ closed (trace (shared Σ2)).
Proof.
  intros Hn Hs Hlt Hnc Hstep Hrun.
  apply Interleaved.step_inv in Hstep as (t & t' & Hn' & Hstep & _).
  rewrite Hn in Hn'. injection Hn' as <-. simpl in Hstep.
  injection Hstep as _ Hsh _.
  assert (dropped s' (shared Σ1)) as Hdrop.
  { rewrite <- Hsh. by split_and!. }
  apply (run_preserved (dropped s') (step_task_dropped s')) in Hrun; [|done].
  destruct Hrun as (_ & ? & ?). rewrite <- Hsh. by split_and!.
Qed.

Lemma close_overtaken_reached :
  run [(0, Go false); (1, Go false)] close_and_reset = Some close_overtaken.
Proof. by vm_compute. Qed.

Lemma close_forgets_replacement_witness :
  ∃ Σ1 Σ2,
    step 0 (CloseResult (Return ())) close_overtaken = Some Σ1 ∧
    run [(1, CloseResult (Return ()))] Σ1 = Some Σ2 ∧
    Forall (λ t, is_done t = true) (tasks Σ2) ∧
    _session (shared Σ1) = None ∧
    trace (shared Σ1) = trace (shared close_overtaken) ∧
    _session (shared Σ2) ≠ Some 1 ∧
    1 ∉ closed (trace (shared Σ2)).
Proof.
  eexists _, _. split; [vm_compute; reflexivity|].
  split; [vm_compute; reflexivity|].
  split; [repeat (apply Forall_cons_2; [reflexivity|]); apply Forall_nil_2|].
  apply (close_forgets_replacement close_overtaken 0 0 1 (Return ()) _
           [(1, CloseResult (Return ()))]).
  - reflexivity.
  - reflexivity.
  - vm_compute. lia.
  - vm_compute. intros H. by repeat (apply elem_of_cons in H as [H|H]; [done|]);
      apply elem_of_nil in H.
  - vm_compute. reflexivity.
  - vm_compute. reflexivity.
Defined.

(** *** The event loop keeps going *)

(** With the lock held and two requests not started, something can run. *)
Lemma no_deadlock_witness : ∃ m i Σ', step m i contended = Some Σ'.
Proof.
  apply (Interleaved.no_deadlock contended 1 (Ready (CallGet "/b"))).
  - reflexivity.
  - reflexivity.
  - reflexivity.
Defined.

(** Nine steps settle the three tasks that were under way or not started. *)
Lemma run_work_witness :
  length settling_schedule + work settled ≤ work contended.
Proof.
  apply (Interleaved.run_work settling_schedule contended settled).
  vm_compute. reflexivity.
Defined.

(** X12. The lock is given back on every way out of the reconstruction
    sequence, a close that raises an exception the handler does not catch
    included: from a state where the lock is held only by a task inside
    the sequence, any schedule that leaves every task done leaves the lock
    free. *)
Theorem lock_free_at_rest sched Σ0 Σ :
  exclusive Σ0 →
  run sched Σ0 = Some Σ →
  Forall (λ t, is_done t = true) (tasks Σ) →
  locked Σ = false.
Proof.
  intros Hex Hrun Hdone.
  apply (Interleaved.run_exclusive _ _ _ Hex) in Hrun.
  unfold exclusive, reconstructors in Hrun.
  assert (filter (λ t, reconstructing t = true) (tasks Σ) = []) as Hnone.
  { clear -Hdone. induction Hdone as [|t ts Ht _ IH]; [done|].
    by destruct t. }
  rewrite Hnone in Hrun. by destruct (locked Σ).
Qed.

Lemma lock_free_at_rest_witness :
  ∃ Σ,
    run [(0, CloseResult (Raise CancelledError));
         (1, Go false); (2, Go false);
         (1, CloseResult (Return ()));
         (1, CallResult (Raise CancelledError)); (2, CallResult ok)]
        contended = Some Σ ∧
    locked Σ = false.
Proof.
  eexists. split; [vm_compute; reflexivity|].
  apply (lock_free_at_rest
    [(0, CloseResult (Raise CancelledError));
     (1, Go false); (2, Go false);
     (1, CloseResult (Return ()));
     (1, CallResult (Raise CancelledError)); (2, CallResult ok)]
    contended).
  - reflexivity.
  - vm_compute. reflexivity.
  - repeat (apply Forall_cons_2; [reflexivity|]). apply Forall_nil_2.
Defined.

End Lifetime.
